(** * Huestacean backend: scheduler tick, start/stop, save and load

    A shallow embedding of [src/backend/backend.cpp].  The file follows the
    source top to bottom: the data the backend works on, the settings store
    it persists to, [Backend::Start] with its tick lambda, [Backend::Stop],
    [Backend::Save] and [Backend::Load]; the properties come afterwards.

    Conventions.
    - A [std::vector] is a [list]; an iterator into it is the position it
      points at.
    - [deviceProviders] is an association list in iteration order; a
      [std::unique_ptr] that may be null is an [option].
    - A member call through a null pointer has no defined behaviour: the
      operations that can reach one return [None] there.
    - What a call does outside the data modelled here is recorded, in
      order, in a list of [Event]s: [DeviceProvider::Start], [Stop] and
      [Update], spawning and joining the thread, and the three steps of the
      dirty block of a tick (scene copy, sort, flatten).
    - What backend.cpp uses but does not define is a parameter ([Types],
      [Externals]) or, where a property depends on it, a definition
      modelled from the specification and marked as such.
    - [std::sort] is such a parameter, taken under the contract the
      standard gives it; where the order of equivalent elements matters,
      the implementation of GNU libstdc++ is run ([Libstdcxx.sort]).
    - A [QString] is represented by its UTF-8 encoding. *)

From Stdlib Require Import ZArith List Bool Permutation Sorted.
From Stdlib Require QArith.
From stdpp Require Import base gmap strings list pretty sorting.

Local Open Scope Z_scope.

(** ** Scalars and transforms *)

(** [double] and [float] values are idealised as rationals: the backend only
    copies them between a scene and the settings store. *)
Definition double : Type := QArith_base.Q.
Definition double_zero : double := QArith_base.Qmake 0 1.

(** [std::chrono::duration<float>], in seconds. *)
Definition Duration : Type := double.

Record Vector3 := mkVector3 { x : double; y : double; z : double }.
Record Rotator := mkRotator { pitch : double; yaw : double; roll : double }.

(** The fields [Backend::Save] and [Backend::Load] access on a transform. *)
Record Transform := mkTransform {
  location : Vector3;
  scale : Vector3;
  rotation : Rotator
}.

(** [enum class ProviderType], by the integer value of the tag. *)
Definition ProviderType : Type := nat.

(** ** Types declared outside backend.cpp

    [Box] (common/math.h) and [HsluvColor] are only stored, copied and handed
    to effects; [HsluvColor_init] is the value-initialised colour that
    [std::vector::resize] appends. *)
Class Types := {
  Box : Type;
  HsluvColor : Type;
  HsluvColor_init : HsluvColor
}.

(** ** Devices *)

(** The device interface as backend.cpp uses it: [GetType], [GetUniqueId],
    and the bounding boxes of its lights under a transform. *)
Record Device `{Types} := mkDevice {
  GetType : ProviderType;
  GetUniqueId : string;
  LightBoundingBoxes : Transform -> list Box
}.

Record DeviceInScene `{Types} := mkDeviceInScene {
  device : Device;
  transform : Transform
}.

(** [DeviceInScene::GetLightBoundingBoxes()]. *)
Definition GetLightBoundingBoxes `{Types} (d : DeviceInScene) : list Box :=
  LightBoundingBoxes (device d) (transform d).

(** ** LightUpdateParams *)

(** An iterator of a [LightUpdateParams]: [Some i] points at position [i] of
    the vector it was taken from ([i] equal to the length is the end
    iterator); [None] is the value-initialised iterator. *)
Definition Cursor : Type := option nat.

Definition Cursor_incr (c : Cursor) : Cursor := S <$> c.

(** [end - begin]; two value-initialised iterators delimit nothing. *)
Definition Cursor_distance (b e : Cursor) : nat :=
  match b, e with
  | Some i, Some j => (j - i)%nat
  | _, _ => 0%nat
  end.

(** Modelled from the spec: the struct is declared in common/lightupdate.h,
    which is not among the sources.  The spec describes it as a view of
    paired begin/end cursors into the shared colour, device and bounding-box
    arrays plus the dirty flags [boundingBoxesDirty], [colorsDirty] and
    [devicesDirty]; the member names are the ones the tick lambda assigns. *)
Record LightUpdateParams := mkLightUpdateParams {
  colorsDirty : bool;
  colorsBegin : Cursor;
  colorsEnd : Cursor;
  devicesDirty : bool;
  devicesBegin : Cursor;
  devicesEnd : Cursor;
  boundingBoxesDirty : bool;
  boundingBoxesBegin : Cursor;
  boundingBoxesEnd : Cursor
}.

(** The value [std::unordered_map::operator[]] inserts for a missing key:
    a value-initialised [LightUpdateParams]. *)
Definition LightUpdateParams_init : LightUpdateParams :=
  mkLightUpdateParams false None None false None None false None None.

Global Instance LightUpdateParams_eq_dec : EqDecision LightUpdateParams.
Proof. solve_decision. Defined.

(** ** Text

    A [std::string] is a sequence of bytes.  A [QString] holds Unicode text
    and is represented by its UTF-8 encoding, the bytes [toUtf8()] returns. *)

Definition byte_value (c : Ascii.ascii) : Z := Z.of_N (Ascii.N_of_ascii c).

Definition string_of_bytes (bs : list Z) : string :=
  foldr (fun b s => String (Ascii.ascii_of_N (Z.to_N b)) s) EmptyString bs.

(** A pointer to [char] read as a C string, as the result of
    [std::string::c_str()] handed to Qt and a [QByteArray] handed to the
    constructor of [std::string] are: the bytes in front of the first NUL. *)
Fixpoint c_str (s : string) : string :=
  match s with
  | EmptyString => EmptyString
  | String c s' => if byte_value c =? 0 then EmptyString else String c (c_str s')
  end.

Definition isContinuationByte (b : Z) : bool := Z.land b 0xC0 =? 0x80.

(** The continuation bytes of a sequence: [n] of them are read from [src]
    into the code point [uc]. *)
Fixpoint continuation (n : nat) (uc : Z) (src : string) : option Z :=
  match n with
  | O => Some uc
  | S n' =>
      match src with
      | EmptyString => None
      | String c src' =>
          let b := byte_value c in
          if isContinuationByte b
          then continuation n' (Z.lor (Z.shiftl uc 6) (Z.land b 0x3F)) src'
          else None
      end
  end.

(** [QUtf8Functions::fromUtf8] for a lead byte [b] that is not ASCII,
    followed by [src]: the length of the sequence, or [None] for a decoding
    error (an impossible lead byte, a missing or wrong continuation byte, an
    overlong form, a surrogate, a value above U+10FFFF). *)
Definition fromUtf8 (b : Z) (src : string) : option nat :=
  if b <=? 0xC1 then None
  else
    let decoded charsNeeded min_uc uc :=
      match continuation (charsNeeded - 1) uc src with
      | None => None
      | Some uc =>
          if uc <? min_uc then None
          else if (0xD800 <=? uc) && (uc <=? 0xDFFF) then None
          else if 0x10FFFF <? uc then None
          else Some charsNeeded
      end in
    if b <? 0xE0 then decoded 2%nat 0x80 (Z.land b 0x1F)
    else if b <? 0xF0 then decoded 3%nat 0x800 (Z.land b 0x0F)
    else if b <? 0xF5 then decoded 4%nat 0x10000 (Z.land b 0x07)
    else None.

(** U+FFFD, in UTF-8. *)
Definition ReplacementCharacter : string := string_of_bytes [0xEF; 0xBF; 0xBD].

(** The decoding loop of [QUtf8::convertToUnicode]: a well-formed sequence
    is taken as it is ([pending] counts the continuation bytes still to
    copy), a byte that starts no well-formed sequence becomes one
    replacement character. *)
Fixpoint convertToUnicode (pending : nat) (src : string) : string :=
  match src with
  | EmptyString => EmptyString
  | String c src' =>
      match pending with
      | S pending' => String c (convertToUnicode pending' src')
      | O =>
          let b := byte_value c in
          if b <? 0x80 then String c (convertToUnicode 0 src')
          else
            match fromUtf8 b src' with
            | Some charsNeeded => String c (convertToUnicode (charsNeeded - 1) src')
            | None => ReplacementCharacter +:+ convertToUnicode 0 src'
            end
      end
  end.

(** A byte order mark at the very start is skipped. *)
Definition skip_bom (chars : string) : string :=
  match chars with
  | String c0 (String c1 (String c2 rest)) =>
      if (byte_value c0 =? 0xEF) && (byte_value c1 =? 0xBB) && (byte_value c2 =? 0xBF)
      then rest else chars
  | _ => chars
  end.

(** [QString::fromUtf8(chars)], with which a [QVariant] constructed from a
    C string builds its text, and [QString::toUtf8()]. *)
Definition QString_fromUtf8 (chars : string) : string := convertToUnicode 0 (skip_bom chars).

Definition QString_toUtf8 (s : string) : string := s.

(** ** The settings store

    [QSettings] is Qt's; what follows is the part of its documented behaviour
    that [Save] and [Load] exercise.  The store maps full keys (the current
    group prefix followed by the key) to variants. *)

Inductive QVariant :=
| QVariant_invalid
| QVariant_string (s : string)
| QVariant_int (n : Z)
| QVariant_double (d : double).

(** The conversions return the stored value of the matching kind and Qt's
    failed-conversion result (empty string, 0, 0.0) for an invalid variant.
    Conversions between kinds (a number kept as text) are not part of the
    model: they take the failed-conversion result too, and the store is taken
    to hand back a variant as it was written. *)
Definition toString (v : QVariant) : string :=
  match v with QVariant_string s => s | _ => "" end.

Definition toInt (v : QVariant) : Z :=
  match v with QVariant_int n => n | _ => 0 end.

Definition toDouble (v : QVariant) : double :=
  match v with QVariant_double d => d | _ => double_zero end.

(** One level of the group stack: the group name, the current array entry
    ([num], 1-based once [setArrayIndex] ran) and the largest entry seen
    ([maxNum], -1 when the size is not being guessed). *)
Record QSettingsGroup := mkQSettingsGroup {
  str : string;
  num : Z;
  maxNum : Z
}.

Definition QSettingsGroup_toString (g : QSettingsGroup) : string :=
  if 0 <? num g then str g +:+ "/" +:+ pretty (num g) else str g.

Definition QSettingsGroup_setArrayIndex (i : Z) (g : QSettingsGroup) : QSettingsGroup :=
  let n := i + 1 in
  mkQSettingsGroup (str g) n
    (if negb (maxNum g =? -1) && (maxNum g <? n) then n else maxNum g).

(** [groupStack] has the innermost group first. *)
Record QSettings := mkQSettings {
  entries : gmap string QVariant;
  groupStack : list QSettingsGroup
}.

(** [QSettings settings;] opened on what is persisted. *)
Definition QSettings_open (persisted : gmap string QVariant) : QSettings :=
  mkQSettings persisted [].

Definition groupPrefix (s : QSettings) : string :=
  foldl (fun acc g => acc +:+ QSettingsGroup_toString g +:+ "/") "" (rev (groupStack s)).

Definition actualKey (s : QSettings) (key : string) : string :=
  groupPrefix s +:+ key.

Definition clear (s : QSettings) : QSettings :=
  mkQSettings ∅ (groupStack s).

Definition setValue (key : string) (v : QVariant) (s : QSettings) : QSettings :=
  mkQSettings (<[actualKey s key := v]> (entries s)) (groupStack s).

Definition value (key : string) (s : QSettings) : QVariant :=
  default QVariant_invalid (entries s !! actualKey s key).

(** [remove] drops the key and every key below it. *)
Definition remove (key : string) (s : QSettings) : QSettings :=
  let k := actualKey s key in
  mkQSettings
    (filter (fun kv => negb (String.eqb k kv.1 || String.prefix (k +:+ "/") kv.1) = true)
            (entries s))
    (groupStack s).

(** [beginWriteArray(prefix)] with the default size -1: the size is guessed
    from the indices set, and a stale "size" entry is removed. *)
Definition beginWriteArray (prefix : string) (s : QSettings) : QSettings :=
  remove "size" (mkQSettings (entries s) (mkQSettingsGroup prefix 0 0 :: groupStack s)).

Definition beginReadArray (prefix : string) (s : QSettings) : Z * QSettings :=
  let s' := mkQSettings (entries s) (mkQSettingsGroup prefix 0 (-1) :: groupStack s) in
  (toInt (value "size" s'), s').

(** Outside an array group [setArrayIndex] only warns. *)
Definition setArrayIndex (i : Z) (s : QSettings) : QSettings :=
  match groupStack s with
  | g :: rest =>
      if num g =? -1 then s
      else mkQSettings (entries s) (QSettingsGroup_setArrayIndex (Z.max i 0) g :: rest)
  | [] => s
  end.

(** [endArray] pops the group and, when the size was being guessed, writes
    it under the array's name in the enclosing group. *)
Definition endArray (s : QSettings) : QSettings :=
  match groupStack s with
  | g :: rest =>
      let s' := mkQSettings (entries s) rest in
      if maxNum g =? -1 then s'
      else setValue (str g +:+ "/size") (QVariant_int (maxNum g)) s'
  | [] => s
  end.

(** ** Effects, scenes and providers *)

(** An effect object: private state behind the virtual methods backend.cpp
    calls.  [Update] receives the bounding boxes and the colour vector and
    leaves a colour vector behind. *)
Record Effect `{Types} := mkEffect {
  EffectState : Type;
  effect_state : EffectState;
  effect_Tick : Duration -> EffectState -> EffectState;
  effect_Update : EffectState -> list Box -> list HsluvColor -> EffectState * list HsluvColor;
  effect_Save : EffectState -> QSettings -> QSettings
}.

(** [effect->Tick(deltaTime)]. *)
Definition Effect_Tick `{Types} (deltaTime : Duration) (e : Effect) : Effect :=
  mkEffect _ (EffectState e) (effect_Tick e deltaTime (effect_state e))
           (effect_Tick e) (effect_Update e) (effect_Save e).

(** [effect->Update(boundingBoxes, colors)]. *)
Definition Effect_Update `{Types} (e : Effect) (boundingBoxes : list Box)
    (colors : list HsluvColor) : Effect * list HsluvColor :=
  let '(st, colors') := effect_Update e (effect_state e) boundingBoxes colors in
  (mkEffect _ (EffectState e) st (effect_Tick e) (effect_Update e) (effect_Save e), colors').

(** [effect->Save(settings)]. *)
Definition Effect_Save `{Types} (e : Effect) (settings : QSettings) : QSettings :=
  effect_Save e (effect_state e) settings.

Record Scene `{Types} := mkScene {
  devices : list DeviceInScene;
  effects : list Effect
}.

(** [Scene()]. *)
Definition Scene_init `{Types} : Scene := mkScene _ [] [].

(** A device provider: private state behind [compare], [Save], [Load] and
    [GetDeviceFromUniqueId].  [Start], [Stop] and [Update] are recorded as
    events. *)
Record DeviceProvider `{Types} := mkDeviceProvider {
  ProviderState : Type;
  provider_state : ProviderState;
  provider_compare : ProviderState -> DeviceInScene -> DeviceInScene -> bool;
  provider_Save : ProviderState -> QSettings -> QSettings;
  provider_Load : ProviderState -> QSettings -> ProviderState * QSettings;
  provider_GetDeviceFromUniqueId : ProviderState -> string -> option Device
}.

Definition DeviceProvider_compare `{Types} (p : DeviceProvider) (a b : DeviceInScene) : bool :=
  provider_compare p (provider_state p) a b.

Definition DeviceProvider_Save `{Types} (p : DeviceProvider) (settings : QSettings) : QSettings :=
  provider_Save p (provider_state p) settings.

Definition DeviceProvider_Load `{Types} (p : DeviceProvider) (settings : QSettings)
    : DeviceProvider * QSettings :=
  let '(st, settings') := provider_Load p (provider_state p) settings in
  (mkDeviceProvider _ (ProviderState p) st (provider_compare p) (provider_Save p)
                    (provider_Load p) (provider_GetDeviceFromUniqueId p), settings').

Definition GetDeviceFromUniqueId `{Types} (p : DeviceProvider) (id : string) : option Device :=
  provider_GetDeviceFromUniqueId p (provider_state p) id.

(** ** Functions declared outside backend.cpp

    [std_sort] is [std::sort] on the device list of a scene, handed the
    comparator; [GetProviderTypeFromUniqueId] is the static member of
    [Device]; [StaticLoad] is [Effect::StaticLoad]. *)
Class Externals `{Types} := {
  std_sort : (DeviceInScene -> DeviceInScene -> bool) -> list DeviceInScene -> list DeviceInScene;
  GetProviderTypeFromUniqueId : string -> ProviderType;
  StaticLoad : QSettings -> Effect * QSettings
}.

(** Modelled from the spec: the free function [compare(DevicePtr, DevicePtr)]
    is declared outside backend.cpp.  The spec calls it the
    provider-independent comparator used across different provider types,
    with the provider type ordering as the key. *)
Definition compare `{Types} (a b : Device) : bool :=
  (GetType a <? GetType b)%nat.

(** ** The backend *)

(** The map [deviceProviders], as the list of its entries in iteration
    order; an entry is [None] when its pointer is null.
    [deviceProviders[type]] creates a null entry for a type the map does not
    hold; where the new entry falls in the iteration order is not fixed by
    backend.cpp, and the model puts it last. *)
Definition Registry `{Types} : Type := list (ProviderType * option DeviceProvider).

Fixpoint Registry_find `{Types} (type : ProviderType) (r : Registry) : option (option DeviceProvider) :=
  match r with
  | [] => None
  | (t, p) :: r' => if (t =? type)%nat then Some p else Registry_find type r'
  end.

(** [deviceProviders[type]]: the pointer found and the map afterwards. *)
Definition Registry_index `{Types} (type : ProviderType) (r : Registry)
    : option DeviceProvider * Registry :=
  match Registry_find type r with
  | Some p => (p, r)
  | None => (None, r ++ [(type, None)])
  end.

(** The members of [Backend].  [thread_joinable] is [thread.joinable()]. *)
Record Backend `{Types} := mkBackend {
  stopRequested : bool;
  thread_joinable : bool;
  scenes : list Scene;
  activeSceneIndex : Z;
  scenesAreDirty : bool;
  deviceProviders : Registry
}.

(** [Backend::Backend()], given the tag [ProviderType::Hue] and the provider
    [std::make_unique<Hue::Provider>()] builds. *)
Definition Backend_init `{Types} (Hue : ProviderType) (hue : DeviceProvider) : Backend :=
  mkBackend _ false false [] 0 false [(Hue, Some hue)].

Inductive Event :=
| ProviderStart (type : ProviderType)
| ProviderStop (type : ProviderType)
| ProviderUpdate (type : ProviderType) (params : LightUpdateParams)
| ThreadSpawn
| ThreadJoin
| SceneCopy
| SortDevices
| Flatten.

Global Instance Event_eq_dec : EqDecision Event.
Proof. solve_decision. Defined.

(** ** Backend::Start, Backend::IsRunning, Backend::Stop *)

Definition IsRunning `{Types} (b : Backend) : bool := thread_joinable b.

(** [for (const auto& dp : deviceProviders) dp.second->M();] for a member
    [M] recorded as the event [ev]. *)
Fixpoint for_each_provider `{Types} (ev : ProviderType -> Event) (r : Registry)
    : option (list Event) :=
  match r with
  | [] => Some []
  | (type, None) :: _ => None
  | (type, Some _) :: r' =>
      match for_each_provider ev r' with
      | Some evs => Some (ev type :: evs)
      | None => None
      end
  end.

(** [Backend::Start()], up to the construction of the thread; what the
    thread runs is [thread_init] and [tick] below. *)
Definition Start `{Types} (b : Backend) : option (Backend * list Event) :=
  if IsRunning b then Some (b, [])
  else
    match for_each_provider ProviderStart (deviceProviders b) with
    | None => None
    | Some evs =>
        Some (mkBackend _ false true (scenes b) (activeSceneIndex b) (scenesAreDirty b)
                        (deviceProviders b),
              evs ++ [ThreadSpawn])
    end.

(** [Backend::Stop()].  [thread.join()] returns once the loop has seen
    [stopRequested]; the thread is not joinable afterwards. *)
Definition Stop `{Types} (b : Backend) : option (Backend * list Event) :=
  if negb (IsRunning b) then Some (b, [])
  else
    match for_each_provider ProviderStop (deviceProviders b) with
    | None => None
    | Some evs =>
        Some (mkBackend _ true false (scenes b) (activeSceneIndex b) (scenesAreDirty b)
                        (deviceProviders b),
              ThreadJoin :: evs)
    end.

(** ** The scheduling thread *)

(** The variables the thread's lambda declares before the tick lambda. *)
Module Locals.
Record t `{Types} := mk {
  renderScene : Scene;
  lightUpdates : gmap nat LightUpdateParams;
  colors : list HsluvColor;
  boundingBoxes : list Box;
  devices : list Device
}.
End Locals.

(** An [int] converted to a 64-bit [size_t], as the comparison with
    [scenes.size()] and [operator[]] do: a negative index wraps around. *)
Definition size_t_of_int (i : Z) : Z := i mod 2 ^ 64.

(** [scenes.size() > index ? scenes[index] : Scene()]. *)
Definition select_scene `{Types} (scenes : list Scene) (index : Z) : Scene :=
  if size_t_of_int index <? Z.of_nat (length scenes)
  then nth (Z.to_nat (size_t_of_int index)) scenes Scene_init
  else Scene_init.

(** The state of the thread when the loop starts. *)
Definition thread_init `{Types} (b : Backend) : Locals.t :=
  Locals.mk _ (select_scene (scenes b) (activeSceneIndex b)) ∅ [] [] [].

(** [lightUpdates[type]]: the value found (a default one is inserted for a
    missing key) and the map afterwards. *)
Definition lightUpdates_index (type : ProviderType) (m : gmap nat LightUpdateParams)
    : LightUpdateParams * gmap nat LightUpdateParams :=
  match m !! type with
  | Some u => (u, m)
  | None => (LightUpdateParams_init, <[type := LightUpdateParams_init]> m)
  end.

(** The comparator handed to [std::sort].  For a type without a live
    provider the same-type branch is a call through a null pointer; [tick]
    does not get there (see [providers_live]), and [false] stands in. *)
Definition sort_comparator `{Types} (r : Registry) (a b : DeviceInScene) : bool :=
  if (GetType (device a) =? GetType (device b))%nat then
    match Registry_find (GetType (device a)) r with
    | Some (Some p) => DeviceProvider_compare p a b
    | _ => false
    end
  else compare (device a) (device b).

(** Every entry's type has a live provider.  [std::sort] may hand any two
    entries to the comparator, and the same-type branch goes through
    [deviceProviders[type]]: the dirty block is defined when this holds. *)
Definition providers_live `{Types} (r : Registry) (ds : list DeviceInScene) : bool :=
  forallb (fun d => match Registry_find (GetType (device d)) r with
                    | Some (Some _) => true
                    | _ => false
                    end) ds.

(** The loop that fills [boundingBoxes] and [devices]. *)
Fixpoint flatten `{Types} (ds : list DeviceInScene) (boundingBoxes : list Box)
    (devices : list Device) : list Box * list Device :=
  match ds with
  | [] => (boundingBoxes, devices)
  | d :: ds' =>
      let boxesToAppend := GetLightBoundingBoxes d in
      let devicesToAppend := replicate (length boxesToAppend) (device d) in
      flatten ds' (boundingBoxes ++ boxesToAppend) (devices ++ devicesToAppend)
  end.

(** [colors.resize(n)]. *)
Definition resize `{Types} (n : nat) (colors : list HsluvColor) : list HsluvColor :=
  take n colors ++ replicate (n - length colors) HsluvColor_init.

(** One of the two [while] loops of the partition scan: [rest] is what lies
    between [devices] cursor and [devices.end()]; the three cursors advance
    together while the device under the cursor satisfies [cond]. *)
Fixpoint advance `{Types} (cond : Device -> bool) (rest : list Device)
    (c d bb : Cursor) : Cursor * Cursor * Cursor :=
  match rest with
  | [] => (c, d, bb)
  | dev :: rest' =>
      if cond dev then advance cond rest' (Cursor_incr c) (Cursor_incr d) (Cursor_incr bb)
      else (c, d, bb)
  end.

(** The body of the partition loop for provider type [type], applied to the
    local [update]: the three flags are set, and the six cursors are
    assigned from [begin()] and advanced by the two loops. *)
Definition scan_partition `{Types} (type : ProviderType) (devices : list Device)
    (update : LightUpdateParams) : LightUpdateParams :=
  let '(cb, db, bbb) :=
    advance (fun dev => negb (GetType dev =? type)%nat) devices (Some 0%nat) (Some 0%nat) (Some 0%nat) in
  let '(ce, de, bbe) :=
    advance (fun dev => (GetType dev =? type)%nat)
            (drop (default 0%nat db) devices) cb db bbb in
  mkLightUpdateParams true cb ce true db de true bbb bbe.

(** The partition loop.  [auto update = lightUpdates[dp.first];] copies the
    map's element: the loop body works on the copy, and the copy is dropped
    at the end of the iteration.  The map is left with the element
    [operator[]] found or inserted. *)
Definition partition_loop `{Types} (r : Registry) (devices : list Device)
    (lightUpdates : gmap nat LightUpdateParams) : gmap nat LightUpdateParams :=
  foldl (fun lightUpdates dp =>
           let '(update, lightUpdates') := lightUpdates_index dp.1 lightUpdates in
           let update' := scan_partition dp.1 devices update in
           lightUpdates')
        lightUpdates r.

(** The block guarded by [if (scenesAreDirty)]: copy the active scene, sort
    its devices, clear and refill [boundingBoxes] and [devices], resize
    [colors], run the partition loop. *)
Definition refresh `{Externals} (b : Backend) (st : Locals.t) : option (Locals.t * list Event) :=
  let updateThreadSceneIndex := activeSceneIndex b in
  let renderScene := select_scene (scenes b) updateThreadSceneIndex in
  if providers_live (deviceProviders b) (devices renderScene) then
    let sorted := std_sort (sort_comparator (deviceProviders b)) (devices renderScene) in
    let '(boundingBoxes, devices) := flatten sorted [] [] in
    let colors := resize (length boundingBoxes) (Locals.colors st) in
    let lightUpdates := partition_loop (deviceProviders b) devices (Locals.lightUpdates st) in
    Some (Locals.mk _ (mkScene _ sorted (effects renderScene)) lightUpdates colors
                    boundingBoxes devices,
          [SceneCopy; SortDevices; Flatten])
  else None.

(** [for (auto& effect : renderScene.effects) { effect->Tick(deltaTime);
    effect->Update(boundingBoxes, colors); }] *)
Fixpoint run_effects `{Types} (deltaTime : Duration) (effects : list Effect)
    (boundingBoxes : list Box) (colors : list HsluvColor) : list Effect * list HsluvColor :=
  match effects with
  | [] => ([], colors)
  | effect :: effects' =>
      let '(effect', colors') :=
        Effect_Update (Effect_Tick deltaTime effect) boundingBoxes colors in
      let '(rest, colors'') := run_effects deltaTime effects' boundingBoxes colors' in
      (effect' :: rest, colors'')
  end.

(** [for (const auto& dp : deviceProviders)
    dp.second->Update(lightUpdates[dp.first]);] *)
Fixpoint dispatch `{Types} (r : Registry) (lightUpdates : gmap nat LightUpdateParams)
    : option (gmap nat LightUpdateParams * list Event) :=
  match r with
  | [] => Some (lightUpdates, [])
  | (type, p) :: r' =>
      let '(params, lightUpdates') := lightUpdates_index type lightUpdates in
      match p with
      | None => None
      | Some _ =>
          match dispatch r' lightUpdates' with
          | Some (lightUpdates'', evs) => Some (lightUpdates'', ProviderUpdate type params :: evs)
          | None => None
          end
      end
  end.

(** The tick lambda.  It reads [scenesAreDirty] and assigns no member of the
    backend. *)
Definition tick `{Externals} (b : Backend) (deltaTime : Duration) (st : Locals.t)
    : option (Locals.t * list Event) :=
  match (if scenesAreDirty b then refresh b st else Some (st, [])) with
  | None => None
  | Some (st1, evs1) =>
      let '(effects', colors') :=
        run_effects deltaTime (effects (Locals.renderScene st1))
                    (Locals.boundingBoxes st1) (Locals.colors st1) in
      match dispatch (deviceProviders b) (Locals.lightUpdates st1) with
      | None => None
      | Some (lightUpdates', evs2) =>
          Some (Locals.mk _ (mkScene _ (devices (Locals.renderScene st1)) effects')
                          lightUpdates' colors' (Locals.boundingBoxes st1)
                          (Locals.devices st1),
                evs1 ++ evs2)
      end
  end.

(** The loop [while (!stopRequested) { ... tick(deltaTime); ... }] for as
    long as no other thread changes the backend: one iteration per measured
    [deltaTime], none once [stopRequested] is set.  The result holds the
    events of each tick.  The sleep between two ticks is not modelled. *)
Fixpoint thread_loop `{Externals} (b : Backend) (deltaTimes : list Duration) (st : Locals.t)
    : option (Locals.t * list (list Event)) :=
  match deltaTimes with
  | [] => Some (st, [])
  | deltaTime :: rest =>
      if stopRequested b then Some (st, [])
      else
        match tick b deltaTime st with
        | None => None
        | Some (st', evs) =>
            match thread_loop b rest st' with
            | None => None
            | Some (st'', evss) => Some (st'', evs :: evss)
            end
        end
  end.

(** ** Backend::GetScenes, Backend::GetDeviceProvider *)

Definition GetScenes `{Types} (b : Backend) : list Scene := scenes b.

(** [return deviceProviders[type];], with the backend afterwards. *)
Definition GetDeviceProvider `{Types} (type : ProviderType) (b : Backend)
    : option DeviceProvider * Backend :=
  let '(p, r) := Registry_index type (deviceProviders b) in
  (p, mkBackend _ (stopRequested b) (thread_joinable b) (scenes b) (activeSceneIndex b)
                (scenesAreDirty b) r).

(** ** Backend::Save *)

(** [s ▷ f] reads "then": the statements of the source, in order, each
    acting on the settings object. *)
Local Notation "s ▷ f" := (f s) (at level 45, left associativity, only parsing).

(** [for (const auto& dp : deviceProviders) dp.second->Save(settings);] *)
Fixpoint save_providers `{Types} (r : Registry) (settings : QSettings) : option QSettings :=
  match r with
  | [] => Some settings
  | (_, None) :: _ => None
  | (_, Some p) :: r' => save_providers r' (DeviceProvider_Save p settings)
  end.

Fixpoint save_effects `{Types} (effects : list Effect) (j : Z) (settings : QSettings)
    : QSettings :=
  match effects with
  | [] => settings
  | effect :: effects' =>
      save_effects effects' (j + 1) (settings ▷ setArrayIndex j ▷ Effect_Save effect)
  end.

(** The ten [setValue] calls for one device, in the order of the source.
    The id is handed over as [GetUniqueId().c_str()]. *)
Definition save_device `{Types} (dis : DeviceInScene) (settings : QSettings) : QSettings :=
  settings
    ▷ setValue "id" (QVariant_string (QString_fromUtf8 (c_str (GetUniqueId (device dis)))))
    ▷ setValue "t.x" (QVariant_double (x (location (transform dis))))
    ▷ setValue "t.y" (QVariant_double (y (location (transform dis))))
    ▷ setValue "t.z" (QVariant_double (z (location (transform dis))))
    ▷ setValue "t.sx" (QVariant_double (x (scale (transform dis))))
    ▷ setValue "t.sy" (QVariant_double (y (scale (transform dis))))
    ▷ setValue "t.sz" (QVariant_double (z (scale (transform dis))))
    ▷ setValue "t.p" (QVariant_double (pitch (rotation (transform dis))))
    ▷ setValue "t.y" (QVariant_double (yaw (rotation (transform dis))))
    ▷ setValue "t.r" (QVariant_double (roll (rotation (transform dis)))).

Fixpoint save_devices `{Types} (devices : list DeviceInScene) (j : Z) (settings : QSettings)
    : QSettings :=
  match devices with
  | [] => settings
  | dis :: devices' =>
      save_devices devices' (j + 1) (settings ▷ setArrayIndex j ▷ save_device dis)
  end.

Fixpoint save_scenes `{Types} (scenesToSave : list Scene) (i : Z) (settings : QSettings)
    : QSettings :=
  match scenesToSave with
  | [] => settings
  | scene :: rest =>
      save_scenes rest (i + 1)
        (settings
           ▷ setArrayIndex i
           ▷ beginWriteArray "effects"
           ▷ save_effects (effects scene) 0
           ▷ endArray
           ▷ beginWriteArray "devices"
           ▷ save_devices (devices scene) 0
           ▷ endArray)
  end.

(** What [Save] does to a settings object once [settings.clear()] ran. *)
Definition save_body `{Types} (b : Backend) (settings : QSettings) : option QSettings :=
  match save_providers (deviceProviders b) settings with
  | None => None
  | Some settings' =>
      let scenesToSave := scenes b in
      Some (settings' ▷ beginWriteArray "scenes" ▷ save_scenes scenesToSave 0 ▷ endArray)
  end.

(** [Backend::Save()], from what is persisted before the call to what is
    persisted after it. *)
Definition Save `{Types} (b : Backend) (persisted : gmap string QVariant)
    : option (gmap string QVariant) :=
  entries <$> save_body b (QSettings_open persisted ▷ clear).

(** ** Backend::Load *)

(** [for (const auto& dp : deviceProviders) dp.second->Load(settings);] *)
Fixpoint load_providers `{Types} (r : Registry) (settings : QSettings)
    : option (Registry * QSettings) :=
  match r with
  | [] => Some ([], settings)
  | (_, None) :: _ => None
  | (type, Some p) :: r' =>
      let '(p', settings') := DeviceProvider_Load p settings in
      match load_providers r' settings' with
      | Some (r'', settings'') => Some ((type, Some p') :: r'', settings'')
      | None => None
      end
  end.

(** The effects loop: [for (int j = 0; j < effectsSize; ++j)] whose body
    starts with [settings.setArrayIndex(j++)].  [fuel] bounds the number of
    iterations; [Load] passes enough (see [load_effects_fuel]). *)
Fixpoint load_effects `{Externals} (fuel : nat) (j effectsSize : Z) (settings : QSettings)
    (effects : list Effect) : list Effect * QSettings :=
  match fuel with
  | O => (effects, settings)
  | S fuel' =>
      if j <? effectsSize then
        let settings := setArrayIndex j settings in
        let j := j + 1 in
        let '(effect, settings) := StaticLoad settings in
        load_effects fuel' (j + 1) effectsSize settings (effects ++ [effect])
      else (effects, settings)
  end.

(** The nine reads that fill the transform of a loaded device. *)
Definition load_transform (settings : QSettings) : Transform :=
  let location_x := toDouble (value "t.x" settings) in
  let location_y := toDouble (value "t.y" settings) in
  let location_z := toDouble (value "t.z" settings) in
  let scale_x := toDouble (value "t.sx" settings) in
  let scale_y := toDouble (value "t.sy" settings) in
  let scale_z := toDouble (value "t.sz" settings) in
  let rotation_pitch := toDouble (value "t.p" settings) in
  let rotation_yaw := toDouble (value "t.y" settings) in
  let rotation_roll := toDouble (value "t.r" settings) in
  mkTransform (mkVector3 location_x location_y location_z)
              (mkVector3 scale_x scale_y scale_z)
              (mkRotator rotation_pitch rotation_yaw rotation_roll).

(** The devices loop: [for (int j = 0; j < devicesSize; ++j)] whose body
    starts with [settings.setArrayIndex(j++)]; both [continue]s go to the
    [++j] of the loop header. *)
Fixpoint load_devices `{Externals} (fuel : nat) (j devicesSize : Z) (settings : QSettings)
    (r : Registry) (devices : list DeviceInScene) : list DeviceInScene * Registry * QSettings :=
  match fuel with
  | O => (devices, r, settings)
  | S fuel' =>
      if j <? devicesSize then
        let settings := setArrayIndex j settings in
        let j := j + 1 in
        let id := c_str (QString_toUtf8 (toString (value "id" settings))) in
        let providerType := GetProviderTypeFromUniqueId id in
        let '(provider, r) := Registry_index providerType r in
        match provider with
        | None => load_devices fuel' (j + 1) devicesSize settings r devices
        | Some p =>
            match GetDeviceFromUniqueId p id with
            | None => load_devices fuel' (j + 1) devicesSize settings r devices
            | Some d =>
                let dis := mkDeviceInScene _ d (load_transform settings) in
                load_devices fuel' (j + 1) devicesSize settings r (devices ++ [dis])
            end
        end
      else (devices, r, settings)
  end.

(** The scenes loop: [for (int i = 0; i < scenesSize; ++i)]. *)
Fixpoint load_scenes `{Externals} (fuel : nat) (i scenesSize : Z) (settings : QSettings)
    (r : Registry) (scenes : list Scene) : list Scene * Registry * QSettings :=
  match fuel with
  | O => (scenes, r, settings)
  | S fuel' =>
      if i <? scenesSize then
        let settings := setArrayIndex i settings in
        let '(effectsSize, settings) := beginReadArray "effects" settings in
        let '(effects, settings) :=
          load_effects (Z.to_nat effectsSize) 0 effectsSize settings [] in
        let settings := endArray settings in
        let '(devicesSize, settings) := beginReadArray "devices" settings in
        let '(devices, r, settings) :=
          load_devices (Z.to_nat devicesSize) 0 devicesSize settings r [] in
        let settings := endArray settings in
        load_scenes fuel' (i + 1) scenesSize settings r (scenes ++ [mkScene _ devices effects])
      else (scenes, r, settings)
  end.

(** [Backend::Load()], reading what is persisted. *)
Definition Load `{Externals} (b : Backend) (persisted : gmap string QVariant) : option Backend :=
  match load_providers (deviceProviders b) (QSettings_open persisted) with
  | None => None
  | Some (r, settings) =>
      let '(scenesSize, settings) := beginReadArray "scenes" settings in
      let '(scenes', r', settings) :=
        load_scenes (Z.to_nat scenesSize) 0 scenesSize settings r (scenes b) in
      Some (mkBackend _ (stopRequested b) (thread_joinable b) scenes' (activeSceneIndex b)
                      (scenesAreDirty b) r')
  end.

(** [Save] on the backend [saved] with an empty store, then [Load] of what
    it persisted on the backend [loaded]. *)
Definition save_then_load `{Externals} (saved loaded : Backend) : option Backend :=
  Save saved ∅ ≫= Load loaded.

(** ** What std::sort promises *)

(** The requirements on a comparator: a strict weak ordering. *)
Definition strict_weak_order {A : Type} (comp : A -> A -> bool) : Prop :=
  (forall a, comp a a = false) /\
  (forall a b c, comp a b = true -> comp b c = true -> comp a c = true) /\
  (forall a b c, comp a b = false -> comp b a = false ->
                 comp b c = false -> comp c b = false ->
                 comp a c = false /\ comp c a = false).

(** Sorted with respect to [comp]: no element is less than an earlier one. *)
Definition sorted_by {A : Type} (comp : A -> A -> bool) (l : list A) : Prop :=
  StronglySorted (fun a b => comp b a = false) l.

(** [comp] is a strict weak ordering of the elements of [l]. *)
Definition strict_weak_order_on {A : Type} (comp : A -> A -> bool) (l : list A) : Prop :=
  (forall a, a ∈ l -> comp a a = false) /\
  (forall a b c, a ∈ l -> b ∈ l -> c ∈ l ->
                 comp a b = true -> comp b c = true -> comp a c = true) /\
  (forall a b c, a ∈ l -> b ∈ l -> c ∈ l ->
                 comp a b = false -> comp b a = false ->
                 comp b c = false -> comp c b = false ->
                 comp a c = false /\ comp c a = false).

(** When the comparator is a strict weak ordering of the elements handed
    over, [std::sort] leaves a permutation of them that is sorted with
    respect to the comparator.  It promises no more: the order of
    equivalent elements is not specified. *)
Definition sort_contract {A : Type} (srt : (A -> A -> bool) -> list A -> list A) : Prop :=
  forall comp l, strict_weak_order_on comp l ->
    Permutation l (srt comp l) /\ sorted_by comp (srt comp l).

(** Two elements are equivalent when neither is less than the other. *)
Definition equivalent {A : Type} (comp : A -> A -> bool) (a b : A) : bool :=
  negb (comp a b) && negb (comp b a).

(** A sort is stable on [l] when every class of equivalent elements appears
    in the output in the order it had in the input. *)
Definition stable_on {A : Type} (comp : A -> A -> bool) (l l' : list A) : Prop :=
  forall a, List.filter (equivalent comp a) l' = List.filter (equivalent comp a) l.

(** Every live provider's [compare] is a strict weak ordering. *)
Definition Registry_ordered `{Types} (r : Registry) : Prop :=
  forall type p, Registry_find type r = Some (Some p) ->
                 strict_weak_order (DeviceProvider_compare p).

(** Device [i] of the flattened array lies in the range a
    [LightUpdateParams] delimits on [devices]. *)
Definition in_devices_range (u : LightUpdateParams) (i : nat) : Prop :=
  exists b e, devicesBegin u = Some b /\ devicesEnd u = Some e /\ (b <= i < e)%nat.

(** The provider types of a flattened array occupy one block each: between
    two devices of one type there is no device of another type. *)
Definition contiguous_by_type `{Types} (devices : list Device) : Prop :=
  forall (i k j : nat) (di dk dj : Device),
    (i < k < j)%nat ->
    devices !! i = Some di -> devices !! k = Some dk -> devices !! j = Some dj ->
    GetType di = GetType dj -> GetType dk = GetType di.

(** The parameters the events of a tick show to have been passed to the
    provider of [type]. *)
Fixpoint dispatched (type : ProviderType) (evs : list Event) : option LightUpdateParams :=
  match evs with
  | [] => None
  | ProviderUpdate t params :: evs' =>
      if (t =? type)%nat then Some params else dispatched type evs'
  | _ :: evs' => dispatched type evs'
  end.

(** ** Notions used by the properties *)

(** The number of leading elements of [l] that satisfy [cond]. *)
Fixpoint leading {A : Type} (cond : A -> bool) (l : list A) : nat :=
  match l with
  | [] => 0%nat
  | a :: l' => if cond a then S (leading cond l') else 0%nat
  end.

(** What the flatten loop appends, written with [flat_map]. *)
Definition flat_boxes `{Types} (ds : list DeviceInScene) : list Box :=
  flat_map GetLightBoundingBoxes ds.

Definition flat_devices `{Types} (ds : list DeviceInScene) : list Device :=
  flat_map (fun d => replicate (length (GetLightBoundingBoxes d)) (device d)) ds.

(** No entry of the registry is a null pointer. *)
Definition Registry_live `{Types} (r : Registry) : Prop :=
  Forall (fun dp => is_Some dp.2) r.

(** Every element of [lightUpdates] still is the value [operator[]]
    inserted. *)
Definition pristine (lightUpdates : gmap nat LightUpdateParams) : Prop :=
  forall type u, lightUpdates !! type = Some u -> u = LightUpdateParams_init.

(** The states the thread can be in at the start of an iteration: the
    initial one, and the one a tick leaves.  The backend may have been
    changed by other threads between two ticks. *)
Inductive reachable `{Externals} : Locals.t -> Prop :=
| reachable_init (b : Backend) : reachable (thread_init b)
| reachable_tick (b : Backend) (deltaTime : Duration) (st st' : Locals.t) (evs : list Event) :
    reachable st -> tick b deltaTime st = Some (st', evs) -> reachable st'.


(** [copied_from st b]: the last snapshot copy behind the thread's variables
    [st] read the backend as it was in [b].  The copy is the one the thread
    makes when it starts, or the one of a tick that found [scenesAreDirty]
    set; a tick that finds the flag unset copies nothing, whatever the
    backend holds by then. *)
Inductive copied_from `{Externals} : Locals.t -> Backend -> Prop :=
| copied_at_start (b : Backend) : copied_from (thread_init b) b
| copied_by_tick (b : Backend) (deltaTime : Duration) (st st' : Locals.t) (evs : list Event) :
    scenesAreDirty b = true -> tick b deltaTime st = Some (st', evs) -> copied_from st' b
| copied_before (b0 b : Backend) (deltaTime : Duration) (st st' : Locals.t) (evs : list Event) :
    copied_from st b0 -> scenesAreDirty b = false -> tick b deltaTime st = Some (st', evs) ->
    copied_from st' b0.

(** A [Save] of an effect is confined when it leaves the group stack as it
    found it and adds keys below the current group only. *)
Definition confined (save : QSettings -> QSettings) : Prop :=
  forall s, groupStack (save s) = groupStack s /\
            forall k, is_Some (entries (save s) !! k) ->
                      is_Some (entries s !! k) \/ String.prefix (groupPrefix s) k = true.

(** The keys of [s] are keys of [provided] or lie below "scenes". *)
Definition keys_accounted (provided : gmap string QVariant) (s : QSettings) : Prop :=
  forall k, is_Some (entries s !! k) ->
            is_Some (provided !! k) \/ String.prefix "scenes/" k = true.

(** The group stack of [s] has the array "scenes" at the bottom and [n]
    groups above it. *)
Definition inside_scenes (n : nat) (s : QSettings) : Prop :=
  exists gs g0, groupStack s = gs ++ [g0] /\ length gs = n /\ str g0 = "scenes".

(** The state of the settings object while [Save] writes the scenes, [n]
    groups deep inside the array "scenes". *)
Definition writing_scenes (provided : gmap string QVariant) (n : nat) (s : QSettings) : Prop :=
  inside_scenes n s /\ keys_accounted provided s.

(** ** An insertion sort

    It meets the contract of [std::sort] and keeps equivalent elements in
    their order. *)
Fixpoint insert_by {A : Type} (before : A -> A -> bool) (a : A) (l : list A) : list A :=
  match l with
  | [] => [a]
  | b :: l' => if before a b then a :: l else b :: insert_by before a l'
  end.

(** An element stops in front of the first one that is not less than it. *)
Definition insertion_sort {A : Type} (comp : A -> A -> bool) (l : list A) : list A :=
  foldr (insert_by (fun a b => negb (comp b a))) [] l.

(** ** std::sort in GNU libstdc++

    [std::sort] as libstdc++ implements it (bits/stl_algo.h and
    bits/stl_heap.h of GCC 12), function by function: an introsort that
    partitions around a median of three down to ranges of 16 elements, falls
    back to heap sort when the depth limit [2 * lg(n)] is used up, and ends
    with an insertion sort.  The array is a list and an iterator is a
    position in it.  The unguarded loops of the original rely on the
    comparator being a strict weak ordering to stay inside the array; here a
    read outside the array yields [d], a write outside it is dropped, and a
    loop stops at the latest after as many steps as the array has
    elements. *)
Module Libstdcxx.
Section Sort.
Context {A : Type} (comp : A -> A -> bool) (d : A).
Implicit Types (arr : list A) (first last middle result pivot : nat).

(** [*(begin + i)] and [*(begin + i) = v]. *)
Definition deref arr (i : nat) : A := nth i arr d.
Definition assign arr (i : nat) (v : A) : list A := <[i := v]> arr.

Definition iter_swap arr (i j : nat) : list A :=
  assign (assign arr i (deref arr j)) j (deref arr i).

(** [std::move_backward(first, last, result)]: the elements of
    [first, last) end up in front of [result]. *)
Definition move_backward arr first last result : list A :=
  take (result - (last - first)) arr ++ take (last - first) (drop first arr) ++ drop result arr.

(** [__move_median_to_first]. *)
Definition move_median_to_first arr result (a b c : nat) : list A :=
  if comp (deref arr a) (deref arr b) then
    if comp (deref arr b) (deref arr c) then iter_swap arr result b
    else if comp (deref arr a) (deref arr c) then iter_swap arr result c
    else iter_swap arr result a
  else if comp (deref arr a) (deref arr c) then iter_swap arr result a
  else if comp (deref arr b) (deref arr c) then iter_swap arr result c
  else iter_swap arr result b.

(** [while (comp(first, pivot)) ++first;] *)
Fixpoint advance_first (fuel : nat) arr first pivot : nat :=
  match fuel with
  | O => first
  | S fuel' =>
      if comp (deref arr first) (deref arr pivot) then advance_first fuel' arr (S first) pivot
      else first
  end.

(** [while (comp(pivot, last)) --last;] *)
Fixpoint retreat_last (fuel : nat) arr last pivot : nat :=
  match fuel with
  | O => last
  | S fuel' =>
      if comp (deref arr pivot) (deref arr last) then retreat_last fuel' arr (pred last) pivot
      else last
  end.

(** [__unguarded_partition]. *)
Fixpoint unguarded_partition (fuel : nat) arr first last pivot : list A * nat :=
  match fuel with
  | O => (arr, first)
  | S fuel' =>
      let first := advance_first (length arr) arr first pivot in
      let last := pred last in
      let last := retreat_last (length arr) arr last pivot in
      if negb (first <? last)%nat then (arr, first)
      else unguarded_partition fuel' (iter_swap arr first last) (S first) last pivot
  end.

(** [__unguarded_partition_pivot]. *)
Definition unguarded_partition_pivot arr first last : list A * nat :=
  let mid := (first + (last - first) / 2)%nat in
  let arr := move_median_to_first arr first (first + 1)%nat mid (last - 1)%nat in
  unguarded_partition (length arr) arr (first + 1)%nat last first.

(** [__push_heap]. *)
Fixpoint push_heap (fuel : nat) arr first (holeIndex topIndex : nat) (value : A) : list A :=
  match fuel with
  | O => assign arr (first + holeIndex) value
  | S fuel' =>
      let parent := ((holeIndex - 1) / 2)%nat in
      if (topIndex <? holeIndex)%nat && comp (deref arr (first + parent)) value then
        push_heap fuel' (assign arr (first + holeIndex) (deref arr (first + parent)))
                  first parent topIndex value
      else assign arr (first + holeIndex) value
  end.

(** The first loop of [__adjust_heap]: the hole moves down to the larger
    child. *)
Fixpoint adjust_heap_loop (fuel : nat) arr first (holeIndex secondChild len : nat)
    : list A * nat * nat :=
  match fuel with
  | O => (arr, holeIndex, secondChild)
  | S fuel' =>
      if (secondChild <? (len - 1) / 2)%nat then
        let secondChild := (2 * (secondChild + 1))%nat in
        let secondChild :=
          if comp (deref arr (first + secondChild)) (deref arr (first + (secondChild - 1)))
          then (secondChild - 1)%nat else secondChild in
        let arr := assign arr (first + holeIndex) (deref arr (first + secondChild)) in
        adjust_heap_loop fuel' arr first secondChild secondChild len
      else (arr, holeIndex, secondChild)
  end.

(** [__adjust_heap]. *)
Definition adjust_heap arr first (holeIndex len : nat) (value : A) : list A :=
  let topIndex := holeIndex in
  let '(arr, holeIndex, secondChild) := adjust_heap_loop len arr first holeIndex holeIndex len in
  let '(arr, holeIndex) :=
    if Nat.even len && (Z.of_nat secondChild =? Z.quot (Z.of_nat len - 2) 2)%Z then
      let secondChild := (2 * (secondChild + 1))%nat in
      (assign arr (first + holeIndex) (deref arr (first + (secondChild - 1))),
       (secondChild - 1)%nat)
    else (arr, holeIndex) in
  push_heap len arr first holeIndex topIndex value.

(** [__pop_heap]. *)
Definition pop_heap arr first last result : list A :=
  let value := deref arr result in
  let arr := assign arr result (deref arr first) in
  adjust_heap arr first 0 (last - first) value.

Fixpoint make_heap_loop (parent : nat) arr first (len : nat) : list A :=
  let value := deref arr (first + parent) in
  let arr := adjust_heap arr first parent len value in
  match parent with
  | O => arr
  | S parent' => make_heap_loop parent' arr first len
  end.

(** [__make_heap]. *)
Definition make_heap arr first last : list A :=
  if (last - first <? 2)%nat then arr
  else
    let len := (last - first)%nat in
    make_heap_loop ((len - 2) / 2) arr first len.

(** [__sort_heap]. *)
Fixpoint sort_heap (fuel : nat) arr first last : list A :=
  match fuel with
  | O => arr
  | S fuel' =>
      if (1 <? last - first)%nat then
        let last := (last - 1)%nat in
        sort_heap fuel' (pop_heap arr first last last) first last
      else arr
  end.

(** [__heap_select]. *)
Definition heap_select arr first middle last : list A :=
  foldl (fun arr i =>
           if comp (deref arr i) (deref arr first) then pop_heap arr first middle i else arr)
        (make_heap arr first middle) (seq middle (last - middle)).

(** [__partial_sort]. *)
Definition partial_sort arr first middle last : list A :=
  sort_heap (middle - first) (heap_select arr first middle last) first middle.

(** The loop of [__unguarded_linear_insert]. *)
Fixpoint unguarded_linear_insert_loop (val : A) (last : nat) arr : list A :=
  match last with
  | O => assign arr 0 val
  | S next =>
      if comp val (deref arr next) then
        unguarded_linear_insert_loop val next (assign arr (S next) (deref arr next))
      else assign arr (S next) val
  end.

(** [__unguarded_linear_insert]. *)
Definition unguarded_linear_insert arr last : list A :=
  unguarded_linear_insert_loop (deref arr last) last arr.

(** [__insertion_sort]. *)
Definition insertion_sort arr first last : list A :=
  if (first =? last)%nat then arr
  else
    foldl (fun arr i =>
             if comp (deref arr i) (deref arr first) then
               let val := deref arr i in
               assign (move_backward arr first i (i + 1)) first val
             else unguarded_linear_insert arr i)
          arr (seq (first + 1) (last - (first + 1))).

(** [__unguarded_insertion_sort]. *)
Definition unguarded_insertion_sort arr first last : list A :=
  foldl (fun arr i => unguarded_linear_insert arr i) arr (seq first (last - first)).

Definition S_threshold : nat := 16.

(** [__final_insertion_sort]. *)
Definition final_insertion_sort arr first last : list A :=
  if (S_threshold <? last - first)%nat then
    unguarded_insertion_sort (insertion_sort arr first (first + S_threshold))
                             (first + S_threshold) last
  else insertion_sort arr first last.

(** [__introsort_loop]: the [while] loop continues on [first, cut) after
    the recursive call on [cut, last), with the depth limit one less. *)
Fixpoint introsort_loop (depth_limit : nat) arr first last : list A :=
  if (S_threshold <? last - first)%nat then
    match depth_limit with
    | O => partial_sort arr first last last
    | S depth_limit' =>
        let '(arr, cut) := unguarded_partition_pivot arr first last in
        let arr := introsort_loop depth_limit' arr cut last in
        introsort_loop depth_limit' arr first cut
    end
  else arr.

(** [__sort] on a range that is not empty. *)
Definition sort_range arr : list A :=
  let last := length arr in
  final_insertion_sort (introsort_loop (Nat.log2 last * 2) arr 0 last) 0 last.
End Sort.

(** [std::sort(begin, end, comp)]. *)
Definition sort {A : Type} (comp : A -> A -> bool) (arr : list A) : list A :=
  match arr with
  | [] => []
  | d :: _ => sort_range comp d arr
  end.
End Libstdcxx.

(** ** Concrete instances *)

(** Boxes and colours as numbers. *)
Definition ex_Types : Types := Build_Types nat nat 0%nat.

Section Examples.
Local Existing Instance ex_Types.

(** An effect without state that sets every colour to [c]. *)
Definition fill_effect (c : nat) : Effect :=
  mkEffect _ unit tt (fun _ st => st)
           (fun st _ colors => (st, List.map (fun _ => c) colors))
           (fun _ settings => settings).

(** A provider that knows the devices [known], treats all of them as
    equivalent, and saves and loads nothing. *)
Definition ex_provider (known : list Device) : DeviceProvider :=
  mkDeviceProvider _ unit tt (fun _ _ _ => false)
                   (fun _ settings => settings)
                   (fun st settings => (st, settings))
                   (fun _ id => List.find (fun d => String.eqb (GetUniqueId d) id) known).

(** Ids of provider type 1 start with 'A', ids of provider type 2 with
    'B'; any other id is of type 3. *)
Definition ex_GetProviderTypeFromUniqueId (id : string) : ProviderType :=
  if String.prefix "A" id then 1%nat
  else if String.prefix "B" id then 2%nat
  else 3%nat.

Definition ex_Externals : Externals :=
  Build_Externals _ insertion_sort ex_GetProviderTypeFromUniqueId
                  (fun settings => (fill_effect 0, settings)).

(** The same with libstdc++'s [std::sort]. *)
Definition ex_Externals_libstdcxx : Externals :=
  Build_Externals _ (@Libstdcxx.sort _) ex_GetProviderTypeFromUniqueId
                  (fun settings => (fill_effect 0, settings)).

Definition identity_transform : Transform :=
  mkTransform (mkVector3 double_zero double_zero double_zero)
              (mkVector3 (QArith_base.Qmake 1 1) (QArith_base.Qmake 1 1) (QArith_base.Qmake 1 1))
              (mkRotator double_zero double_zero double_zero).

(** Provider A's device has one light, provider B's has two. *)
Definition device_A : Device := mkDevice _ 1%nat "A1" (fun _ => [10%nat]).
Definition device_B : Device := mkDevice _ 2%nat "B1" (fun _ => [20%nat; 21%nat]).

Definition device_A2 : Device := mkDevice _ 1%nat "A2" (fun _ => [11%nat]).
Definition device_Z : Device := mkDevice _ 3%nat "Z9" (fun _ => [30%nat]).

Definition ex_registry : Registry :=
  [(1%nat, Some (ex_provider [device_A; device_A2])); (2%nat, Some (ex_provider [device_B]))].

Definition scenario_scene : Scene :=
  mkScene _ [mkDeviceInScene _ device_B identity_transform;
             mkDeviceInScene _ device_A identity_transform]
          [fill_effect 7].

Definition scenario_backend : Backend :=
  mkBackend _ false true [scenario_scene] 0 true ex_registry.

(** The thread's variables in the scenario after the dirty block, and
    after the whole first tick. *)
Definition scenario_refreshed : Locals.t :=
  Locals.mk _
    (mkScene _ [mkDeviceInScene _ device_A identity_transform;
                mkDeviceInScene _ device_B identity_transform]
             [fill_effect 7])
    (<[2%nat := LightUpdateParams_init]> (<[1%nat := LightUpdateParams_init]> ∅))
    [0; 0; 0]%nat [10; 20; 21]%nat [device_A; device_B; device_B].

Definition scenario_ticked : Locals.t :=
  Locals.mk _
    (mkScene _ [mkDeviceInScene _ device_A identity_transform;
                mkDeviceInScene _ device_B identity_transform]
             [fill_effect 7])
    (<[2%nat := LightUpdateParams_init]> (<[1%nat := LightUpdateParams_init]> ∅))
    [7; 7; 7]%nat [10; 20; 21]%nat [device_A; device_B; device_B].

Definition scenario_events : list Event :=
  [SceneCopy; SortDevices; Flatten;
   ProviderUpdate 1%nat LightUpdateParams_init; ProviderUpdate 2%nat LightUpdateParams_init].



(** A backend that holds the one scene [scene]. *)
Definition backend_with (scene : Scene) : Backend :=
  mkBackend _ false false [scene] 0 true ex_registry.

(** A backend without scenes, as it is before [Load]. *)
Definition fresh_backend : Backend :=
  mkBackend _ false false [] 0 false ex_registry.

Definition number (n : Z) : double := QArith_base.Qmake n 1.

(** Nine different numbers in the nine fields. *)
Definition placed_transform : Transform :=
  mkTransform (mkVector3 (number 1) (number 2) (number 3))
              (mkVector3 (number 4) (number 5) (number 6))
              (mkRotator (number 7) (number 8) (number 9)).

(** Seventeen devices of provider A, "A0" to "A16", in the order of their
    numbers: the provider's [compare] tells no difference between them. *)
Definition numbered_device (n : nat) : Device :=
  mkDevice _ 1%nat ("A" +:+ pretty n) (fun _ => [n]).

Definition crowded_scene : Scene :=
  mkScene _ ((fun n => mkDeviceInScene _ (numbered_device n) identity_transform) <$> seq 0 17) [].

Definition placed_scene : Scene :=
  mkScene _ [mkDeviceInScene _ device_A placed_transform] [].

Definition pair_scene : Scene :=
  mkScene _ [mkDeviceInScene _ device_A identity_transform;
             mkDeviceInScene _ device_A2 identity_transform] [].

(** The first entry is a device of a provider type that is not
    registered. *)
Definition stray_scene : Scene :=
  mkScene _ [mkDeviceInScene _ device_Z identity_transform;
             mkDeviceInScene _ device_A identity_transform;
             mkDeviceInScene _ device_A2 identity_transform] [].
End Examples.


(** ** Notions used by the further properties *)

(** The [Update] calls among the events of a tick, in order. *)
Definition provider_updates (evs : list Event) : list (ProviderType * LightUpdateParams) :=
  omap (fun ev => match ev with
                  | ProviderUpdate type params => Some (type, params)
                  | _ => None
                  end) evs.

(** An effect whose [Update] leaves the colour vector at the length it
    found. *)
Definition length_preserving `{Types} (e : Effect) : Prop :=
  forall st boundingBoxes colors,
    length (effect_Update e st boundingBoxes colors).2 = length colors.

(** The registry holds a null pointer. *)
Definition Registry_has_null `{Types} (r : Registry) : Prop :=
  Exists (fun dp => dp.2 = None) r.

(** Text of ASCII characters other than NUL. *)
Fixpoint plain_text (s : string) : bool :=
  match s with
  | EmptyString => true
  | String c s' => (0 <? byte_value c) && (byte_value c <? 0x80) && plain_text s'
  end.

Fixpoint has_NUL (s : string) : bool :=
  match s with
  | EmptyString => false
  | String c s' => (byte_value c =? 0) || has_NUL s'
  end.

(** The transform [Load] reads back for a device saved with [t]. *)
Definition reloaded (t : Transform) : Transform :=
  mkTransform (mkVector3 (x (location t)) (yaw (rotation t)) (z (location t)))
              (scale t) (rotation t).

(** Every entry of [ds] holds a device that a live provider of the registry
    resolved from an id of its provider type. *)
Definition resolved_in `{Externals} (r : Registry) (ds : list DeviceInScene) : Prop :=
  Forall (fun dis => exists id p,
            Registry_find (GetProviderTypeFromUniqueId id) r = Some (Some p) /\
            GetDeviceFromUniqueId p id = Some (device dis)) ds.

(** The ids the devices loop of [Load] reads, in order, and the settings
    object it leaves: the loop of [load_devices] without the registry and
    the scene. *)
Fixpoint devices_ids (fuel : nat) (j devicesSize : Z) (settings : QSettings)
    : list string * QSettings :=
  match fuel with
  | O => ([], settings)
  | S fuel' =>
      if j <? devicesSize then
        let settings := setArrayIndex j settings in
        let j := j + 1 in
        let id := c_str (QString_toUtf8 (toString (value "id" settings))) in
        let '(ids, settings) := devices_ids fuel' (j + 1) devicesSize settings in
        (id :: ids, settings)
      else ([], settings)
  end.

(** The same for the scenes loop. *)
Fixpoint scenes_ids `{Externals} (fuel : nat) (i scenesSize : Z) (settings : QSettings)
    : list string :=
  match fuel with
  | O => []
  | S fuel' =>
      if i <? scenesSize then
        let settings := setArrayIndex i settings in
        let '(effectsSize, settings) := beginReadArray "effects" settings in
        let '(_, settings) := load_effects (Z.to_nat effectsSize) 0 effectsSize settings [] in
        let settings := endArray settings in
        let '(devicesSize, settings) := beginReadArray "devices" settings in
        let '(ids, settings) := devices_ids (Z.to_nat devicesSize) 0 devicesSize settings in
        let settings := endArray settings in
        ids ++ scenes_ids fuel' (i + 1) scenesSize settings
      else []
  end.

(** The ids [Load] reads once the providers have loaded, each of them
    looked up in [deviceProviders] under its provider type. *)
Definition Load_ids `{Externals} (settings : QSettings) : list string :=
  let '(scenesSize, settings) := beginReadArray "scenes" settings in
  scenes_ids (Z.to_nat scenesSize) 0 scenesSize settings.

(** [nulls] holds one null entry for every type among [types] that the
    registry [r] has no entry for, and nothing else. *)
Definition nulls_for `{Types} (r nulls : Registry) (types : list ProviderType) : Prop :=
  Forall (fun dp => dp.2 = None) nulls /\
  NoDup nulls.*1 /\
  forall type, type ∈ nulls.*1 <-> (type ∉ r.*1) /\ type ∈ types.

Section MoreExamples.
Local Existing Instance ex_Types.

(** The scenario's backend as [Load] leaves one: the scene is there, the
    scenes are not marked dirty. *)
Definition unmarked_backend : Backend :=
  mkBackend _ false true [scenario_scene] 0 false ex_registry.

(** The thread's variables after a first tick on [unmarked_backend]. *)
Definition unmarked_ticked : Locals.t :=
  Locals.mk _ scenario_scene
    (<[2%nat := LightUpdateParams_init]> (<[1%nat := LightUpdateParams_init]> ∅))
    [] [] [].

(** The registry after a lookup of provider type 3. *)
Definition poisoned_backend : Backend :=
  mkBackend _ false false [] 0 false (ex_registry ++ [(3%nat, None)]).

(** A store with one scene of one device entry, without transform. *)
Definition small_store : gmap string QVariant :=
  <["scenes/size" := QVariant_int 1]>
    (<["scenes/1/devices/size" := QVariant_int 1]>
       (<["scenes/1/devices/1/id" := QVariant_string "A1"]> ∅)).

Definition zero_transform : Transform :=
  mkTransform (mkVector3 double_zero double_zero double_zero)
              (mkVector3 double_zero double_zero double_zero)
              (mkRotator double_zero double_zero double_zero).

Definition small_loaded : Backend :=
  mkBackend _ false false [mkScene _ [mkDeviceInScene _ device_A zero_transform] []] 0 false
            ex_registry.

(** A store with one scene of one device entry whose id belongs to
    provider type 3, which is not registered, and the backend [Load] makes
    of it. *)
Definition stray_store : gmap string QVariant :=
  <["scenes/size" := QVariant_int 1]>
    (<["scenes/1/devices/size" := QVariant_int 1]>
       (<["scenes/1/devices/1/id" := QVariant_string "Z9"]> ∅)).

Definition stray_loaded : Backend :=
  mkBackend _ false false [mkScene _ [] []] 0 false (ex_registry ++ [(3%nat, None)]).

(** A device whose id holds a NUL: "A1", NUL, "B". *)
Definition device_cut : Device :=
  mkDevice _ 1%nat (string_of_bytes [0x41; 0x31; 0; 0x42]) (fun _ => [12%nat]).
End MoreExamples.

(** * Properties *)

(** ** The sort *)

Section Sorting.
Context {A : Type}.
Implicit Types (comp before : A -> A -> bool) (l domain : list A).

Lemma swo_on_all comp l : strict_weak_order comp -> strict_weak_order_on comp l.
Proof. intros (Hirr & Htr & Heq). repeat split; eauto. all: by eapply Heq. Qed.

Lemma swo_on_asym comp domain a b :
  strict_weak_order_on comp domain -> a ∈ domain -> b ∈ domain ->
  comp a b = true -> comp b a = false.
Proof.
  intros (Hirr & Htr & _) Ha Hb Hab. destruct (comp b a) eqn:Hba; [|done].
  by rewrite <- (Hirr a Ha), (Htr a b a).
Qed.

(** Not being less is transitive. *)
Lemma swo_on_not_less_trans comp domain a b c :
  strict_weak_order_on comp domain -> a ∈ domain -> b ∈ domain -> c ∈ domain ->
  comp b a = false -> comp c b = false -> comp c a = false.
Proof.
  intros Hswo Ha Hb Hc Hba Hcb. pose proof Hswo as (Hirr & Htr & Heq).
  destruct (comp c a) eqn:Hca; [|done].
  destruct (comp a b) eqn:Hab.
  { by rewrite (Htr c a b) in Hcb. }
  destruct (comp b c) eqn:Hbc.
  { by rewrite (Htr b c a) in Hba. }
  destruct (Heq a b c) as [_ ?]; congruence.
Qed.

Lemma insert_by_Permutation before a l : Permutation (a :: l) (insert_by before a l).
Proof.
  induction l as [|b l IH]; simpl; [done|].
  destruct (before a b); [done|].
  rewrite perm_swap. by constructor.
Qed.

Lemma foldr_insert_by_Permutation before l :
  Permutation l (foldr (insert_by before) [] l).
Proof.
  induction l as [|a l IH]; simpl; [done|].
  rewrite <- insert_by_Permutation. by constructor.
Qed.

(** Inserting keeps a list sorted when [before a b] places [a] in front of
    a [b] it is not greater than, and behind a [b] it is not less than. *)
Lemma insert_by_sorted comp before domain a l :
  strict_weak_order_on comp domain ->
  a ∈ domain -> l ⊆ domain ->
  (forall b, b ∈ domain -> before a b = true -> comp b a = false) ->
  (forall b, b ∈ domain -> before a b = false -> comp a b = false) ->
  sorted_by comp l -> sorted_by comp (insert_by before a l).
Proof.
  intros Hswo Ha Hl Hin Hout. unfold sorted_by.
  induction 1 as [|b l Hs IH Hb]; simpl.
  { repeat constructor. }
  assert (b ∈ domain) as Hbd by (apply Hl; left).
  assert (l ⊆ domain) as Hld by (intros c Hc; apply Hl; by right).
  destruct (before a b) eqn:Hab.
  - constructor; [by constructor|].
    constructor; [by apply Hin|].
    rewrite Forall_forall in Hb |- *. intros c Hc.
    apply (swo_on_not_less_trans comp domain a b c); auto.
  - constructor; [by apply IH|].
    apply (Permutation_Forall (insert_by_Permutation before a l)).
    constructor; [by apply Hout | done].
Qed.

Lemma foldr_insert_by_sorted comp before domain l :
  strict_weak_order_on comp domain -> l ⊆ domain ->
  (forall a b, a ∈ domain -> b ∈ domain -> before a b = true -> comp b a = false) ->
  (forall a b, a ∈ domain -> b ∈ domain -> before a b = false -> comp a b = false) ->
  sorted_by comp (foldr (insert_by before) [] l).
Proof.
  intros Hswo Hl Hin Hout. induction l as [|a l IH]; simpl; [constructor|].
  assert (a ∈ domain) as Ha by (apply Hl; left).
  assert (l ⊆ domain) as Hld by (intros c Hc; apply Hl; by right).
  apply (insert_by_sorted comp before domain); auto.
  intros c Hc. apply Hld.
  by rewrite (foldr_insert_by_Permutation before l).
Qed.

Lemma insertion_sort_contract : sort_contract (@insertion_sort A).
Proof.
  intros comp l Hswo. split; [apply foldr_insert_by_Permutation|].
  apply (foldr_insert_by_sorted comp _ l); [done|done| |].
  - intros a b _ _ Hb. by apply negb_true_iff in Hb.
  - intros a b Ha Hb Hab. apply negb_false_iff in Hab. by apply (swo_on_asym comp l b a).
Qed.

End Sorting.

(** ** The comparator of the tick *)

Section Comparator.
Context `{Types}.
Implicit Types (r : Registry) (a b : DeviceInScene) (l : list DeviceInScene).

(** With strict weak orderings inside the providers, the lambda handed to
    [std::sort] is a strict weak ordering. *)
(** The same-type branch of the comparator, for the type [type]. *)
Lemma same_type_branch_swo r type :
  Registry_ordered r ->
  strict_weak_order (fun a b => match Registry_find type r with
                                | Some (Some p) => DeviceProvider_compare p a b
                                | _ => false
                                end).
Proof.
  intros Hr. destruct (Registry_find type r) as [[p|]|] eqn:Hp;
    [by apply (Hr type)|by repeat split..].
Qed.

(** With strict weak orderings inside the providers, the lambda handed to
    [std::sort] is a strict weak ordering. *)
Lemma sort_comparator_swo r : Registry_ordered r -> strict_weak_order (sort_comparator r).
Proof.
  intros Hr.
  assert (Hdiff : forall a b, GetType (device a) <> GetType (device b) ->
            sort_comparator r a b = (GetType (device a) <? GetType (device b))%nat).
  { intros a b Hab. unfold sort_comparator, compare.
    by apply Nat.eqb_neq in Hab as ->. }
  assert (Hequiv : forall a b, sort_comparator r a b = false -> sort_comparator r b a = false ->
            GetType (device a) = GetType (device b)).
  { intros a b Hab Hba.
    destruct (decide (GetType (device a) = GetType (device b))) as [|N]; [done|].
    rewrite Hdiff in Hab, Hba by done. apply Nat.ltb_ge in Hab, Hba. lia. }
  split; [|split].
  - intros a. unfold sort_comparator. rewrite Nat.eqb_refl.
    by apply (same_type_branch_swo r _ Hr).
  - intros a b c Hab Hbc.
    destruct (decide (GetType (device a) = GetType (device b))) as [Eab|Nab];
      destruct (decide (GetType (device b) = GetType (device c))) as [Ebc|Nbc].
    + destruct (same_type_branch_swo r (GetType (device a)) Hr) as (_ & Htr & _).
      unfold sort_comparator in *.
      rewrite <- Ebc, <- Eab, ?Nat.eqb_refl in *. by apply (Htr a b c).
    + rewrite Hdiff in Hbc |- * by congruence. by rewrite Eab.
    + rewrite Hdiff in Hab |- * by congruence. by rewrite <- Ebc.
    + rewrite Hdiff in Hab, Hbc by done.
      apply Nat.ltb_lt in Hab, Hbc.
      rewrite Hdiff by lia. apply Nat.ltb_lt. lia.
  - intros a b c Hab Hba Hbc Hcb.
    pose proof (Hequiv _ _ Hab Hba) as Eab. pose proof (Hequiv _ _ Hbc Hcb) as Ebc.
    destruct (same_type_branch_swo r (GetType (device a)) Hr) as (_ & _ & Heq).
    unfold sort_comparator in *.
    rewrite <- Ebc, <- Eab, ?Nat.eqb_refl in *. by apply (Heq a b c).
Qed.

(** A list sorted by the comparator has its provider types in
    non-decreasing order. *)
Lemma sorted_types_ascend r l :
  sorted_by (sort_comparator r) l ->
  StronglySorted (fun d1 d2 : Device => (GetType d1 <= GetType d2)%nat) (device <$> l).
Proof.
  unfold sorted_by. induction 1 as [|a l Hs IH Ha]; simpl; constructor; [done|].
  apply Forall_fmap. eapply Forall_impl; [exact Ha|]. simpl. intros b Hba.
  unfold sort_comparator, compare in Hba.
  destruct (GetType (device b) =? GetType (device a))%nat eqn:E.
  - apply Nat.eqb_eq in E. lia.
  - apply Nat.ltb_ge in Hba. done.
Qed.

(** Types in non-decreasing order sit in one block each. *)
Lemma ascending_contiguous (ds : list Device) :
  StronglySorted (fun d1 d2 : Device => (GetType d1 <= GetType d2)%nat) ds -> contiguous_by_type ds.
Proof.
  intros Hs i k j di dk dj [Hik Hkj] Hi Hk Hj Hij.
  assert (Hle : forall m n dm dn, (m < n)%nat -> ds !! m = Some dm -> ds !! n = Some dn ->
                                  (GetType dm <= GetType dn)%nat).
  { clear -Hs. induction Hs as [|a ds Hs IH Ha]; intros m n dm dn Hmn Hm Hn; [done|].
    destruct n as [|n]; [lia|]. destruct m as [|m]; simpl in *.
    - simplify_eq. rewrite Forall_forall in Ha. apply Ha.
      by eapply list_elem_of_lookup_2.
    - eapply (IH m n); eauto with lia. }
  pose proof (Hle _ _ _ _ Hik Hi Hk). pose proof (Hle _ _ _ _ Hkj Hk Hj). lia.
Qed.
End Comparator.

(** ** Flattening and resizing *)

Section Flatten.
Context `{Types}.
Implicit Types (ds : list DeviceInScene) (devs : list Device).

Lemma flatten_flat_map ds (bbs : list Box) devs :
  flatten ds bbs devs = (bbs ++ flat_boxes ds, devs ++ flat_devices ds).
Proof.
  revert bbs devs. induction ds as [|d ds IH]; intros bbs devs; simpl.
  - by rewrite !app_nil_r.
  - rewrite IH. by rewrite <- !app_assoc.
Qed.

Lemma flat_lengths ds : length (flat_boxes ds) = length (flat_devices ds).
Proof.
  induction ds as [|d ds IH]; simpl; [done|].
  unfold flat_boxes, flat_devices in *. simpl.
  by rewrite !length_app, length_replicate, IH.
Qed.

(** The flattened lengths do not depend on the order of the entries. *)
Lemma flat_boxes_length_Permutation ds ds' :
  Permutation ds ds' -> length (flat_boxes ds) = length (flat_boxes ds').
Proof.
  unfold flat_boxes.
  induction 1; simpl; rewrite ?length_app in *; lia.
Qed.

Lemma length_resize n (colors : list HsluvColor) : length (resize n colors) = n.
Proof. unfold resize. rewrite length_app, length_take, length_replicate. lia. Qed.

(** A device list in ascending type order flattens to one. *)
Lemma flat_devices_ascend ds :
  StronglySorted (fun d1 d2 : Device => (GetType d1 <= GetType d2)%nat) (device <$> ds) ->
  StronglySorted (fun d1 d2 : Device => (GetType d1 <= GetType d2)%nat) (flat_devices ds).
Proof.
  unfold flat_devices.
  induction ds as [|d ds IH]; simpl; [constructor|].
  intros [Hd Hs]%StronglySorted_cons.
  apply StronglySorted_app_2; [| |by apply IH].
  - intros x1 x2 ->%elem_of_replicate_inv (d' & Hd' & Hx2)%list_elem_of_In%in_flat_map.
    apply list_elem_of_In, elem_of_replicate_inv in Hx2 as ->.
    rewrite Forall_forall in Hd. apply Hd.
    apply list_elem_of_fmap. exists d'. split; [done|]. by apply list_elem_of_In.
  - generalize (length (GetLightBoundingBoxes d)). intros n.
    induction n as [|n IHn]; simpl; constructor; [done|].
    apply Forall_forall. by intros x ->%elem_of_replicate_inv.
Qed.
End Flatten.

(** ** The partition scan *)

Section Scan.
Context `{Types}.
Implicit Types (devs rest : list Device) (cond : Device -> bool).

Lemma advance_leading cond rest (c d bb : nat) :
  advance cond rest (Some c) (Some d) (Some bb) =
  (Some (c + leading cond rest)%nat, Some (d + leading cond rest)%nat,
   Some (bb + leading cond rest)%nat).
Proof.
  revert c d bb. induction rest as [|dev rest IH]; intros c d bb; simpl.
  - by rewrite !Nat.add_0_r.
  - destruct (cond dev); simpl.
    + rewrite IH. by rewrite !Nat.add_succ_r.
    + by rewrite !Nat.add_0_r.
Qed.

Lemma leading_le {A} (cond : A -> bool) (l : list A) : (leading cond l <= length l)%nat.
Proof. induction l as [|a l IH]; simpl; [done|]. destruct (cond a); lia. Qed.

(** The elements in front of position [leading cond l] satisfy [cond]. *)
Lemma leading_holds {A} (cond : A -> bool) (l : list A) i :
  (i < leading cond l)%nat -> exists a, l !! i = Some a /\ cond a = true.
Proof.
  revert i. induction l as [|a l IH]; intros i Hi; simpl in *; [lia|].
  destruct (cond a) eqn:Ha; [|lia].
  destruct i as [|i]; simpl; [eauto|]. apply IH. lia.
Qed.

Lemma leading_all {A} (cond : A -> bool) (l : list A) :
  Forall (fun a => cond a = true) l -> leading cond l = length l.
Proof. induction 1 as [|a l Ha _ IH]; simpl; [done|]. by rewrite Ha, IH. Qed.

(** The cursors the scan leaves in the local [update]. *)
Lemma scan_partition_cursors type devs update :
  let b := leading (fun dev => negb (GetType dev =? type)%nat) devs in
  let e := (b + leading (fun dev => (GetType dev =? type)%nat) (drop b devs))%nat in
  scan_partition type devs update =
  mkLightUpdateParams true (Some b) (Some e) true (Some b) (Some e) true (Some b) (Some e).
Proof.
  intros b e. unfold scan_partition.
  rewrite (advance_leading _ devs 0 0 0). simpl.
  fold b. by rewrite (advance_leading _ (drop b devs) b b b).
Qed.


(** Without a device of [type], the scan leaves an empty range at the end
    of the arrays. *)
Lemma scan_partition_absent type devs update :
  Forall (fun d => GetType d <> type) devs ->
  scan_partition type devs update =
  mkLightUpdateParams true (Some (length devs)) (Some (length devs))
                      true (Some (length devs)) (Some (length devs))
                      true (Some (length devs)) (Some (length devs)).
Proof.
  intros Habs. rewrite scan_partition_cursors.
  rewrite (leading_all (fun dev => negb (GetType dev =? type)%nat) devs).
  - rewrite drop_all. simpl. by rewrite Nat.add_0_r.
  - eapply Forall_impl; [exact Habs|]. simpl. intros d Hd.
    by apply negb_true_iff, Nat.eqb_neq.
Qed.
End Scan.

(** ** The light updates of the thread *)

Section LightUpdates.
Context `{Externals}.
Implicit Types (r : Registry) (m : gmap nat LightUpdateParams).

Lemma pristine_empty : pristine ∅.
Proof. intros type u Hu. by rewrite lookup_empty in Hu. Qed.

Lemma lightUpdates_index_pristine type m :
  pristine m ->
  (lightUpdates_index type m).1 = LightUpdateParams_init /\
  pristine (lightUpdates_index type m).2.
Proof.
  intros Hm. unfold lightUpdates_index.
  destruct (m !! type) as [u|] eqn:Hu; simpl.
  - split; [by apply (Hm type)|done].
  - split; [done|]. intros t u. rewrite lookup_insert.
    case_decide; [congruence|apply Hm].
Qed.

(** The partition loop writes nothing but default elements into the map. *)
Lemma partition_loop_pristine r devs m : pristine m -> pristine (partition_loop r devs m).
Proof.
  unfold partition_loop. revert m.
  induction r as [|[type p] r IH]; intros m Hm; simpl; [done|].
  destruct (lightUpdates_index type m) as [update m'] eqn:Hidx.
  apply IH. by apply (lightUpdates_index_pristine type m) in Hm as [_ Hm']; rewrite Hidx in Hm'.
Qed.

Lemma dispatch_live r m : Registry_live r -> is_Some (dispatch r m).
Proof.
  intros Hr. revert m. induction Hr as [|[type p] r [p' Hp] _ IH]; intros m; simpl; [done|].
  simpl in Hp. subst p. destruct (lightUpdates_index type m) as [params m'].
  destruct (IH m') as [[m'' evs] ->]. done.
Qed.

(** On a pristine map, every provider of the registry is handed the default
    [LightUpdateParams], and the map stays pristine. *)
Lemma dispatch_pristine r m m' evs :
  pristine m -> dispatch r m = Some (m', evs) ->
  pristine m' /\
  forall type, is_Some (Registry_find type r) -> dispatched type evs = Some LightUpdateParams_init.
Proof.
  revert m m' evs. induction r as [|[t p] r IH]; intros m m' evs Hm Hd; simpl in *.
  - simplify_eq. split; [done|]. by intros type [? ?].
  - destruct (lightUpdates_index t m) as [params m1] eqn:Hidx.
    destruct p as [p|]; [|done].
    destruct (dispatch r m1) as [[m2 evs2]|] eqn:Hd2; [|done]. simplify_eq.
    destruct (lightUpdates_index_pristine t m Hm) as [Hparams Hm1].
    rewrite Hidx in Hparams, Hm1. simpl in *. subst params.
    destruct (IH _ _ _ Hm1 Hd2) as [Hm2 Hall]. split; [done|].
    intros type Hfind. simpl. destruct (t =? type)%nat; [done|by apply Hall].
Qed.

(** [dispatch] records updates only. *)
Lemma dispatch_events r m m' evs :
  dispatch r m = Some (m', evs) -> ~ In SortDevices evs /\ ~ In Flatten evs /\ ~ In SceneCopy evs.
Proof.
  revert m m' evs. induction r as [|[t p] r IH]; intros m m' evs Hd; simpl in *.
  - simplify_eq. simpl. tauto.
  - destruct (lightUpdates_index t m) as [params m1].
    destruct p as [p|]; [|done].
    destruct (dispatch r m1) as [[m2 evs2]|] eqn:Hd2; [|done]. simplify_eq.
    destruct (IH _ _ _ Hd2) as (? & ? & ?). simpl. intuition congruence.
Qed.

(** The tick, taken apart. *)
Lemma tick_inv b deltaTime st st' evs :
  tick b deltaTime st = Some (st', evs) ->
  exists st1 evs1 lightUpdates' evs2,
    (if scenesAreDirty b then refresh b st else Some (st, [])) = Some (st1, evs1) /\
    dispatch (deviceProviders b) (Locals.lightUpdates st1) = Some (lightUpdates', evs2) /\
    evs = evs1 ++ evs2 /\
    Locals.lightUpdates st' = lightUpdates' /\
    Locals.boundingBoxes st' = Locals.boundingBoxes st1 /\
    Locals.devices st' = Locals.devices st1 /\
    devices (Locals.renderScene st') = devices (Locals.renderScene st1) /\
    (effects (Locals.renderScene st'), Locals.colors st') =
      run_effects deltaTime (effects (Locals.renderScene st1))
                  (Locals.boundingBoxes st1) (Locals.colors st1).
Proof.
  unfold tick. intros Ht.
  destruct (if scenesAreDirty b then refresh b st else Some (st, [])) as [[st1 evs1]|]; [|done].
  destruct (run_effects _ _ _ _) as [effects' colors'] eqn:Hrun.
  destruct (dispatch _ _) as [[lightUpdates' evs2]|] eqn:Hd; [|done].
  simplify_eq. exists st1, evs1, lightUpdates', evs2. simpl. by rewrite Hrun.
Qed.

(** The dirty block, taken apart. *)
Lemma refresh_inv b st st1 evs1 :
  refresh b st = Some (st1, evs1) ->
  let scene := select_scene (scenes b) (activeSceneIndex b) in
  let sorted := std_sort (sort_comparator (deviceProviders b)) (devices scene) in
  providers_live (deviceProviders b) (devices scene) = true /\
  evs1 = [SceneCopy; SortDevices; Flatten] /\
  Locals.renderScene st1 = mkScene _ sorted (effects scene) /\
  Locals.boundingBoxes st1 = flat_boxes sorted /\
  Locals.devices st1 = flat_devices sorted /\
  Locals.colors st1 = resize (length (flat_boxes sorted)) (Locals.colors st) /\
  Locals.lightUpdates st1 =
    partition_loop (deviceProviders b) (flat_devices sorted) (Locals.lightUpdates st).
Proof.
  intros Hr scene sorted. unfold refresh in Hr. fold scene in Hr.
  destruct (providers_live _ _); [|done]. fold sorted in Hr.
  rewrite flatten_flat_map in Hr. simpl in Hr. by simplify_eq.
Qed.

Lemma refresh_pristine b st st1 evs1 :
  pristine (Locals.lightUpdates st) -> refresh b st = Some (st1, evs1) ->
  pristine (Locals.lightUpdates st1).
Proof.
  intros Hp (_ & _ & _ & _ & _ & _ & ->)%refresh_inv. by apply partition_loop_pristine.
Qed.

(** No state of the thread holds anything but default elements in
    [lightUpdates]: the ranges the partition loop computes never reach
    the map. *)
Lemma reachable_pristine st : reachable st -> pristine (Locals.lightUpdates st).
Proof.
  induction 1 as [b|b deltaTime st st' evs _ IH Ht]; [apply pristine_empty|].
  apply tick_inv in Ht as (st1 & evs1 & m' & evs2 & Hr & Hd & _ & -> & _).
  assert (pristine (Locals.lightUpdates st1)) as Hp1.
  { destruct (scenesAreDirty b); [by eapply refresh_pristine|by simplify_eq]. }
  by destruct (dispatch_pristine _ _ _ _ Hp1 Hd).
Qed.
End LightUpdates.

(** ** Partitions of a sorted array *)

Section Partition.
Context `{Types}.
Implicit Types (devs : list Device).

(** Where [leading] stops inside the list, the element fails [cond]. *)
Lemma leading_stop {A} (cond : A -> bool) (l : list A) :
  (leading cond l < length l)%nat ->
  exists a, l !! leading cond l = Some a /\ cond a = false.
Proof.
  induction l as [|a l IH]; simpl; [lia|].
  destruct (cond a) eqn:Ha; simpl; [|eauto]. intros Hl. apply IH. lia.
Qed.

(** In an array in ascending type order, the range scanned for [type]
    holds every device of that type. *)
Lemma scan_partition_complete type devs update i d :
  StronglySorted (fun d1 d2 : Device => (GetType d1 <= GetType d2)%nat) devs ->
  devs !! i = Some d -> GetType d = type ->
  in_devices_range (scan_partition type devs update) i.
Proof.
  intros Hs Hi Ht. rewrite scan_partition_cursors. simpl.
  set (b := leading (fun dev => negb (GetType dev =? type)%nat) devs).
  set (n := leading (fun dev => (GetType dev =? type)%nat) (drop b devs)).
  exists b, (b + n)%nat. split; [done|]. split; [done|].
  pose proof (lookup_lt_Some _ _ _ Hi) as Hlen.
  assert (Hbi : (b <= i)%nat).
  { destruct (decide (i < b)%nat) as [Hlt|]; [|lia].
    destruct (leading_holds _ _ _ Hlt) as (d' & Hd' & Hc). simplify_eq.
    apply negb_true_iff, Nat.eqb_neq in Hc. done. }
  split; [done|].
  destruct (decide (i < b + n)%nat) as [|Hge]; [done|]. exfalso.
  assert (Hb : exists db, devs !! b = Some db /\ GetType db = type).
  { destruct (leading_stop (fun dev => negb (GetType dev =? type)%nat) devs) as (db & Hdb & Hc);
      [fold b; lia|].
    exists db. split; [done|]. by apply negb_false_iff, Nat.eqb_eq in Hc. }
  destruct Hb as (db & Hdb & Htb).
  destruct (leading_stop (fun dev => (GetType dev =? type)%nat) (drop b devs)) as (de & Hde & Hc).
  { fold n. rewrite length_drop. lia. }
  fold n in Hde. rewrite lookup_drop in Hde. apply Nat.eqb_neq in Hc.
  assert (0 < n)%nat.
  { destruct n as [|n'] eqn:En; [|lia]. rewrite Nat.add_0_r in Hde. simplify_eq. }
  destruct (decide (i = b + n)%nat) as [->|]; [by simplify_eq|].
  apply Hc. rewrite <- Htb.
  apply (ascending_contiguous devs Hs b (b + n)%nat i db de d); [lia|done..|congruence].
Qed.
End Partition.

(** ** The dirty block of a tick *)

Section Refresh.
Context `{Externals}.




(** C4, as the code has it: [std::sort] leaves a permutation of the
    scene's entries that is sorted by the comparator, and with the
    cross-type branch ordering by provider type, every provider type
    present occupies one block, both in the scene's device list and in
    the flattened array, and the range scanned for a type is that block.
    The order of equivalent entries is not part of it. *)
Theorem sort_groups_provider_types (b : Backend) (st st1 : Locals.t) (evs1 : list Event) :
  sort_contract std_sort ->
  Registry_ordered (deviceProviders b) ->
  refresh b st = Some (st1, evs1) ->
  Permutation (devices (select_scene (scenes b) (activeSceneIndex b)))
              (devices (Locals.renderScene st1)) /\
  sorted_by (sort_comparator (deviceProviders b)) (devices (Locals.renderScene st1)) /\
  contiguous_by_type (device <$> devices (Locals.renderScene st1)) /\
  contiguous_by_type (Locals.devices st1) /\
  forall (type : ProviderType) (update : LightUpdateParams) (i : nat) (d : Device),
    Locals.devices st1 !! i = Some d -> GetType d = type ->
    in_devices_range (scan_partition type (Locals.devices st1) update) i.
Proof.
  intros Hsort Hr (_ & _ & Hscene & _ & Hdevs & _)%refresh_inv.
  rewrite Hscene, Hdevs. simpl.
  destruct (Hsort (sort_comparator (deviceProviders b))
                  (devices (select_scene (scenes b) (activeSceneIndex b)))
                  (swo_on_all _ _ (sort_comparator_swo _ Hr))) as [Hperm Hsorted].
  pose proof (sorted_types_ascend _ _ Hsorted) as Hasc.
  pose proof (flat_devices_ascend _ Hasc) as Hflat.
  split; [done|]. split; [done|].
  split; [by apply ascending_contiguous|].
  split; [by apply ascending_contiguous|].
  intros type update i d. by apply scan_partition_complete.
Qed.
End Refresh.

(** ** Whole ticks *)

Section Tick.
Context `{Externals}.

(** A tick goes through when no registry entry is null and, if the scenes
    are dirty, every device of the active scene has a live provider. *)
Lemma tick_defined (b : Backend) (deltaTime : Duration) (st : Locals.t) :
  Registry_live (deviceProviders b) ->
  (scenesAreDirty b = true ->
   providers_live (deviceProviders b)
                  (devices (select_scene (scenes b) (activeSceneIndex b))) = true) ->
  is_Some (tick b deltaTime st).
Proof.
  intros Hlive Hdevs. unfold tick.
  assert (is_Some (if scenesAreDirty b then refresh b st else Some (st, []))) as [[st1 evs1] ->].
  { destruct (scenesAreDirty b); [|done]. unfold refresh. rewrite Hdevs by done.
    by destruct (flatten _ _ _). }
  destruct (run_effects _ _ _ _) as [effects' colors'].
  by destruct (dispatch_live (deviceProviders b) (Locals.lightUpdates st1) Hlive) as [[m evs2] ->].
Qed.

(** The events in front of the dispatch are no updates. *)
Lemma dispatched_after_refresh (b : Backend) (st st1 : Locals.t) (evs1 evs2 : list Event) type :
  (if scenesAreDirty b then refresh b st else Some (st, [])) = Some (st1, evs1) ->
  dispatched type (evs1 ++ evs2) = dispatched type evs2.
Proof.
  destruct (scenesAreDirty b).
  - by intros (_ & -> & _)%refresh_inv.
  - by intros [= <- <-].
Qed.

(** What a provider is handed, on every tick of the thread: the default
    [LightUpdateParams]. *)
Lemma tick_dispatches_default (b : Backend) (deltaTime : Duration) (st st' : Locals.t)
    (evs : list Event) (type : ProviderType) :
  reachable st ->
  tick b deltaTime st = Some (st', evs) ->
  is_Some (Registry_find type (deviceProviders b)) ->
  dispatched type evs = Some LightUpdateParams_init.
Proof.
  intros Hreach Ht Hfind.
  pose proof (reachable_pristine _ Hreach) as Hp.
  apply tick_inv in Ht as (st1 & evs1 & m' & evs2 & Hr & Hd & -> & _).
  rewrite (dispatched_after_refresh _ _ _ _ _ _ Hr).
  assert (pristine (Locals.lightUpdates st1)) as Hp1.
  { destruct (scenesAreDirty b); [by eapply refresh_pristine|by simplify_eq]. }
  destruct (dispatch_pristine _ _ _ _ Hp1 Hd) as [_ Hall]. by apply Hall.
Qed.

(** C7: a tick goes through, and a registered provider without a device in
    the flattened array is handed a [LightUpdateParams] whose begin and end
    cursors are equal for colours, devices and bounding boxes; so are the
    cursors the partition scan computes for it. *)
Theorem absent_provider_gets_empty_range (b : Backend) (deltaTime : Duration) (st : Locals.t) :
  reachable st ->
  Registry_live (deviceProviders b) ->
  (scenesAreDirty b = true ->
   providers_live (deviceProviders b)
                  (devices (select_scene (scenes b) (activeSceneIndex b))) = true) ->
  exists st' evs,
    tick b deltaTime st = Some (st', evs) /\
    forall type : ProviderType,
      is_Some (Registry_find type (deviceProviders b)) ->
      Forall (fun d => GetType d <> type) (Locals.devices st') ->
      exists params,
        dispatched type evs = Some params /\
        colorsBegin params = colorsEnd params /\
        devicesBegin params = devicesEnd params /\
        boundingBoxesBegin params = boundingBoxesEnd params /\
        let update := scan_partition type (Locals.devices st') params in
        colorsBegin update = colorsEnd update /\
        devicesBegin update = devicesEnd update /\
        boundingBoxesBegin update = boundingBoxesEnd update.
Proof.
  intros Hreach Hlive Hdevs.
  destruct (tick_defined b deltaTime st Hlive Hdevs) as [[st' evs] Ht].
  exists st', evs. split; [done|]. intros type Hfind Habs.
  exists LightUpdateParams_init. split; [by eapply tick_dispatches_default|].
  rewrite (scan_partition_absent _ _ _ Habs). done.
Qed.

(** A tick that finds [scenesAreDirty] unset neither copies, sorts nor
    flattens: it keeps the flattened arrays and the scene's device list,
    and hands the providers what it handed them before. *)
Lemma clean_tick_reuses_partitions (b : Backend) (deltaTime : Duration) (st st' : Locals.t)
    (evs : list Event) :
  scenesAreDirty b = false ->
  tick b deltaTime st = Some (st', evs) ->
  ~ In SceneCopy evs /\ ~ In SortDevices evs /\ ~ In Flatten evs /\
  Locals.boundingBoxes st' = Locals.boundingBoxes st /\
  Locals.devices st' = Locals.devices st /\
  devices (Locals.renderScene st') = devices (Locals.renderScene st).
Proof.
  intros Hclean (st1 & evs1 & m' & evs2 & Hr & Hd & -> & _ & Hbb & Hdevs & Hscene & _)%tick_inv.
  rewrite Hclean in Hr. simplify_eq. simpl.
  destruct (dispatch_events _ _ _ _ Hd) as (? & ? & ?). done.
Qed.

(** Whether a tick goes through depends on the backend only. *)
Lemma tick_defined_again (b : Backend) (deltaTime1 deltaTime2 : Duration)
    (st st1 st' : Locals.t) (evs1 : list Event) :
  tick b deltaTime1 st = Some (st1, evs1) -> is_Some (tick b deltaTime2 st').
Proof.
  intros (st1' & evs1' & m1 & evs1'' & Hr & Hd & _)%tick_inv.
  apply tick_defined.
  - clear -Hd. revert Hd. generalize (Locals.lightUpdates st1'). revert m1 evs1''.
    induction (deviceProviders b) as [|[t p] r IH]; intros m1 evs m Hd; simpl in *;
      [constructor|].
    destruct (lightUpdates_index t m) as [params m']. destruct p as [p|]; [|done].
    destruct (dispatch r m') as [[m'' evs']|] eqn:Hd'; [|done].
    constructor; [done|]. by eapply IH.
  - intros Hdirty. rewrite Hdirty in Hr. by apply refresh_inv in Hr as (Hlive & _).
Qed.

(** A tick that finds [scenesAreDirty] set copies, sorts and flattens. *)
Lemma dirty_tick_events (b : Backend) (deltaTime : Duration) (st st' : Locals.t)
    (evs : list Event) :
  scenesAreDirty b = true ->
  tick b deltaTime st = Some (st', evs) ->
  In SceneCopy evs /\ In SortDevices evs /\ In Flatten evs.
Proof.
  intros Hdirty (st1 & evs1 & m & evs2 & Hr & _ & -> & _)%tick_inv.
  rewrite Hdirty in Hr. apply refresh_inv in Hr as (_ & -> & _).
  simpl. tauto.
Qed.

(** C6, what the code does: the tick never clears [scenesAreDirty], so
    with the flag set and nothing marking the scene dirty again, the tick
    after a dirty tick goes through and copies, sorts and flattens once
    more. *)
Theorem dirty_tick_repeats (b : Backend) (deltaTime1 deltaTime2 : Duration)
    (st st1 : Locals.t) (evs1 : list Event) :
  scenesAreDirty b = true ->
  tick b deltaTime1 st = Some (st1, evs1) ->
  exists st2 evs2,
    tick b deltaTime2 st1 = Some (st2, evs2) /\
    In SceneCopy evs2 /\ In SortDevices evs2 /\ In Flatten evs2.
Proof.
  intros Hdirty Ht1.
  destruct (tick_defined_again b deltaTime1 deltaTime2 st st1 st1 evs1 Ht1) as [[st2 evs2] Ht2].
  exists st2, evs2. split; [done|]. by eapply dirty_tick_events.
Qed.

(** The same in the loop of the thread: two iterations with the flag set and
    no other thread at work both run the dirty block. *)
Lemma thread_loop_repeats_dirty_block (b : Backend) (deltaTime1 deltaTime2 : Duration)
    (st st2 : Locals.t) (evss : list (list Event)) :
  scenesAreDirty b = true ->
  stopRequested b = false ->
  thread_loop b [deltaTime1; deltaTime2] st = Some (st2, evss) ->
  exists evs1 evs2,
    evss = [evs1; evs2] /\
    In SortDevices evs1 /\ In Flatten evs1 /\ In SortDevices evs2 /\ In Flatten evs2.
Proof.
  intros Hdirty Hrun Hloop. simpl in Hloop. rewrite Hrun in Hloop.
  destruct (tick b deltaTime1 st) as [[st1 evs1]|] eqn:Ht1; [|done].
  destruct (tick b deltaTime2 st1) as [[st2' evs2]|] eqn:Ht2; [|done].
  simplify_eq. exists evs1, evs2. split; [done|].
  destruct (dirty_tick_events _ _ _ _ _ Hdirty Ht1) as (_ & ? & ?).
  destruct (dirty_tick_events _ _ _ _ _ Hdirty Ht2) as (_ & ? & ?). done.
Qed.
End Tick.

(** ** The scene a tick renders *)

Section ActiveScene.
Context `{Externals}.



(** What a dirty tick leaves: the devices of the selected scene, sorted; the
    arrays flattened from them; the effects of the selected scene, run on
    the resized colours. *)
Lemma dirty_tick_result (b : Backend) (deltaTime : Duration) (st st' : Locals.t)
    (evs : list Event) :
  scenesAreDirty b = true ->
  tick b deltaTime st = Some (st', evs) ->
  let scene := select_scene (scenes b) (activeSceneIndex b) in
  devices (Locals.renderScene st') =
    std_sort (sort_comparator (deviceProviders b)) (devices scene) /\
  Locals.boundingBoxes st' = flat_boxes (devices (Locals.renderScene st')) /\
  Locals.devices st' = flat_devices (devices (Locals.renderScene st')) /\
  (effects (Locals.renderScene st'), Locals.colors st') =
    run_effects deltaTime (effects scene) (Locals.boundingBoxes st')
                (resize (length (Locals.boundingBoxes st')) (Locals.colors st)).
Proof.
  intros Hdirty (st1 & evs1 & m' & evs2 & Hr & _ & _ & _ & Hbb & Hdevs & Hscene & Hrun)%tick_inv.
  rewrite Hdirty in Hr.
  apply refresh_inv in Hr as (_ & _ & Hscene1 & Hbb1 & Hdevs1 & Hcolors1 & _).
  simpl. rewrite Hrun, Hbb, Hdevs, Hscene, Hscene1, Hbb1, Hdevs1, Hcolors1. done.
Qed.








(** Every state of the thread has a last copy behind it. *)
Lemma reachable_copied_from (st : Locals.t) :
  reachable st -> exists b0, copied_from st b0.
Proof.
  induction 1 as [b|b deltaTime st st' evs _ [b0 IH] Ht].
  - exists b. apply copied_at_start.
  - destruct (scenesAreDirty b) eqn:Hdirty.
    + exists b. by eapply copied_by_tick.
    + exists b0. by eapply copied_before.
Qed.

End ActiveScene.

(** ** Start and Stop *)

Section StartStop.
Context `{Types}.

(** C9: [Start] on a running backend and [Stop] on a stopped one return
    the backend as it was and cause no event (no provider is started or
    stopped, no thread is spawned or joined); a second [Start] after a
    [Start], and a second [Stop] after a [Stop], do the same. *)
Theorem start_stop_idempotent (b : Backend) :
  (IsRunning b = true -> Start b = Some (b, [])) /\
  (IsRunning b = false -> Stop b = Some (b, [])) /\
  (forall b' evs, Start b = Some (b', evs) -> Start b' = Some (b', [])) /\
  (forall b' evs, Stop b = Some (b', evs) -> Stop b' = Some (b', [])).
Proof.
  unfold Start, Stop. repeat split.
  - by intros ->.
  - by intros ->.
  - intros b' evs. destruct (IsRunning b) eqn:Hrun.
    + intros [= <- <-]. by rewrite Hrun.
    + destruct (for_each_provider _ _); [|done]. by intros [= <- <-].
  - intros b' evs. destruct (IsRunning b) eqn:Hrun; simpl.
    + destruct (for_each_provider _ _); [|done]. by intros [= <- <-].
    + intros [= <- <-]. by rewrite Hrun.
Qed.

(** [Start] on a stopped backend starts every provider and spawns the
    thread; [Stop] on a running one joins it and stops every provider. *)
Lemma Start_Stop_working (b : Backend) :
  Registry_live (deviceProviders b) ->
  (IsRunning b = false ->
   exists b', Start b = Some (b', (ProviderStart <$> (deviceProviders b).*1) ++ [ThreadSpawn]) /\
              IsRunning b' = true /\ stopRequested b' = false) /\
  (IsRunning b = true ->
   exists b', Stop b = Some (b', ThreadJoin :: (ProviderStop <$> (deviceProviders b).*1)) /\
              IsRunning b' = false /\ stopRequested b' = true).
Proof.
  intros Hlive.
  assert (Hfor : forall ev, for_each_provider ev (deviceProviders b) =
                            Some (ev <$> (deviceProviders b).*1)).
  { intros ev. induction Hlive as [|[t p] r [p' Hp] _ IH]; simpl in *; [done|].
    subst p. by rewrite IH. }
  unfold Start, Stop. split; intros ->; simpl; rewrite Hfor; eauto.
Qed.
End StartStop.


(** ** The scenario with two providers *)

Section Scenario.
Local Existing Instance ex_Types.
Context (E : Externals).

Lemma ex_registry_ordered : Registry_ordered ex_registry.
Proof.
  intros type p Hp.
  destruct type as [|[|[|type]]]; simplify_eq/=;
    (split; [done|split; [done|by intros; split]]).
Qed.

Lemma ex_registry_live : Registry_live ex_registry.
Proof. repeat constructor; by eexists. Qed.

(** Whatever [std::sort] does with equivalent entries, it puts provider
    A's device in front of provider B's. *)
Lemma scenario_sorted :
  sort_contract std_sort ->
  std_sort (sort_comparator ex_registry) (devices scenario_scene) =
  [mkDeviceInScene _ device_A identity_transform; mkDeviceInScene _ device_B identity_transform].
Proof.
  intros Hsort.
  destruct (Hsort (sort_comparator ex_registry) (devices scenario_scene)
                  (swo_on_all _ _ (sort_comparator_swo _ ex_registry_ordered)))
    as [Hperm Hsorted].
  apply Permutation_length_2_inv in Hperm as [Heq|Heq]; [|done].
  rewrite Heq in Hsorted. unfold sorted_by in Hsorted.
  apply StronglySorted_cons in Hsorted as [Hhd _].
  apply Forall_cons in Hhd as [Hhd _]. by vm_compute in Hhd.
Qed.

(** C1, what the code does in the scenario: after the tick [colors] holds
    three times the effect's colour, and the partition scan finds a range
    of length 1 for provider A and one of length 2 for provider B; but
    both providers are handed the default [LightUpdateParams], whose
    ranges have length 0. *)
Theorem scenario_tick (deltaTime : Duration) :
  sort_contract std_sort ->
  exists st' evs,
    tick scenario_backend deltaTime (thread_init scenario_backend) = Some (st', evs) /\
    Locals.colors st' = [7; 7; 7]%nat /\
    (let update := scan_partition 1%nat (Locals.devices st') LightUpdateParams_init in
     Cursor_distance (devicesBegin update) (devicesEnd update) = 1%nat) /\
    (let update := scan_partition 2%nat (Locals.devices st') LightUpdateParams_init in
     Cursor_distance (devicesBegin update) (devicesEnd update) = 2%nat) /\
    exists params_A params_B,
      dispatched 1%nat evs = Some params_A /\
      dispatched 2%nat evs = Some params_B /\
      Cursor_distance (colorsBegin params_A) (colorsEnd params_A) = 0%nat /\
      Cursor_distance (devicesBegin params_A) (devicesEnd params_A) = 0%nat /\
      Cursor_distance (boundingBoxesBegin params_A) (boundingBoxesEnd params_A) = 0%nat /\
      Cursor_distance (colorsBegin params_B) (colorsEnd params_B) = 0%nat /\
      Cursor_distance (devicesBegin params_B) (devicesEnd params_B) = 0%nat /\
      Cursor_distance (boundingBoxesBegin params_B) (boundingBoxesEnd params_B) = 0%nat.
Proof.
  intros Hsort.
  destruct (tick_defined scenario_backend deltaTime (thread_init scenario_backend)
                         ex_registry_live) as [[st' evs] Ht]; [done|].
  exists st', evs. split; [done|].
  assert (dispatched 1%nat evs = Some LightUpdateParams_init) as HA.
  { eapply tick_dispatches_default; [apply reachable_init|done..]. }
  assert (dispatched 2%nat evs = Some LightUpdateParams_init) as HB.
  { eapply tick_dispatches_default; [apply reachable_init|done..]. }
  destruct (dirty_tick_result scenario_backend deltaTime (thread_init scenario_backend)
                             st' evs eq_refl Ht) as (Hscene & Hbb & Hdevs & Hrun).
  change (select_scene _ _) with scenario_scene in *.
  change (deviceProviders scenario_backend) with ex_registry in *.
  rewrite (scenario_sorted Hsort) in Hscene. rewrite Hscene in *.
  rewrite Hbb in Hrun. rewrite Hdevs. apply (f_equal snd) in Hrun.
  split; [exact Hrun|]. split; [done|]. split; [done|].
  exists LightUpdateParams_init, LightUpdateParams_init. done.
Qed.
End Scenario.

(** ** The loops of Load *)

Section LoadLoops.
Context `{Externals}.

(** The loops of [Load] end by their own test: any two amounts of fuel
    that cover the remaining indices give one result. *)
Lemma load_effects_fuel (fuel1 fuel2 : nat) (j effectsSize : Z) (settings : QSettings)
    (effs : list Effect) :
  (Z.to_nat (effectsSize - j) <= fuel1)%nat -> (Z.to_nat (effectsSize - j) <= fuel2)%nat ->
  load_effects fuel1 j effectsSize settings effs = load_effects fuel2 j effectsSize settings effs.
Proof.
  revert fuel2 j settings effs.
  induction fuel1 as [|fuel1 IH]; intros fuel2 j settings effs H1 H2.
  - destruct fuel2 as [|fuel2]; simpl; [done|].
    destruct (Z.ltb_spec j effectsSize); [lia|done].
  - simpl. destruct (Z.ltb_spec j effectsSize) as [Hlt|Hge].
    + destruct fuel2 as [|fuel2]; [lia|]. simpl.
      rewrite (proj2 (Z.ltb_lt _ _) Hlt).
      destruct (StaticLoad _) as [effect settings']. apply IH; lia.
    + destruct fuel2 as [|fuel2]; simpl; [done|].
      by rewrite (proj2 (Z.ltb_ge _ _) Hge).
Qed.

Lemma load_devices_fuel (fuel1 fuel2 : nat) (j devicesSize : Z) (settings : QSettings)
    (r : Registry) (devs : list DeviceInScene) :
  (Z.to_nat (devicesSize - j) <= fuel1)%nat -> (Z.to_nat (devicesSize - j) <= fuel2)%nat ->
  load_devices fuel1 j devicesSize settings r devs =
  load_devices fuel2 j devicesSize settings r devs.
Proof.
  revert fuel2 j settings r devs.
  induction fuel1 as [|fuel1 IH]; intros fuel2 j settings r devs H1 H2.
  - destruct fuel2 as [|fuel2]; simpl; [done|].
    destruct (Z.ltb_spec j devicesSize); [lia|done].
  - simpl. destruct (Z.ltb_spec j devicesSize) as [Hlt|Hge].
    + destruct fuel2 as [|fuel2]; [lia|]. simpl.
      rewrite (proj2 (Z.ltb_lt _ _) Hlt).
      destruct (Registry_index _ r) as [[p|] r'];
        [destruct (GetDeviceFromUniqueId p _)|]; apply IH; lia.
    + destruct fuel2 as [|fuel2]; simpl; [done|].
      by rewrite (proj2 (Z.ltb_ge _ _) Hge).
Qed.

Lemma load_scenes_fuel (fuel1 fuel2 : nat) (i scenesSize : Z) (settings : QSettings)
    (r : Registry) (scs : list Scene) :
  (Z.to_nat (scenesSize - i) <= fuel1)%nat -> (Z.to_nat (scenesSize - i) <= fuel2)%nat ->
  load_scenes fuel1 i scenesSize settings r scs = load_scenes fuel2 i scenesSize settings r scs.
Proof.
  revert fuel2 i settings r scs.
  induction fuel1 as [|fuel1 IH]; intros fuel2 i settings r scs H1 H2.
  - destruct fuel2 as [|fuel2]; simpl; [done|].
    destruct (Z.ltb_spec i scenesSize); [lia|done].
  - simpl. destruct (Z.ltb_spec i scenesSize) as [Hlt|Hge].
    + destruct fuel2 as [|fuel2]; [lia|]. simpl.
      rewrite (proj2 (Z.ltb_lt _ _) Hlt).
      repeat match goal with |- context [let '(_, _) := ?e in _] => destruct e end.
      apply IH; lia.
    + destruct fuel2 as [|fuel2]; simpl; [done|].
      by rewrite (proj2 (Z.ltb_ge _ _) Hge).
Qed.

(** The devices loop only adds entries behind the ones already loaded,
    and no more than one for every two indices left. *)
Lemma load_devices_extends (fuel : nat) (j devicesSize : Z) (settings : QSettings)
    (r : Registry) (devs : list DeviceInScene) :
  exists added, (load_devices fuel j devicesSize settings r devs).1.1 = devs ++ added /\
                (Z.of_nat (length added) <= Z.max 0 ((devicesSize - j + 1) / 2)).
Proof.
  revert j settings r devs.
  induction fuel as [|fuel IH]; intros j settings r devs; simpl.
  { exists []. rewrite app_nil_r. split; [done|]. simpl. lia. }
  destruct (Z.ltb_spec j devicesSize) as [Hlt|Hge];
    [|exists []; rewrite app_nil_r; split; [done|simpl; lia]].
  assert (Hhalf : (devicesSize - j + 1) / 2 = 1 + (devicesSize - (j + 1 + 1) + 1) / 2).
  { replace (devicesSize - j + 1) with (1 * 2 + (devicesSize - (j + 1 + 1) + 1)) by lia.
    rewrite Z.div_add_l by lia. done. }
  assert (0 <= (devicesSize - (j + 1 + 1) + 1) / 2) by (apply Z.div_pos; lia).
  destruct (Registry_index _ r) as [[p|] r'];
    [destruct (GetDeviceFromUniqueId p _) as [d|]|].
  - destruct (IH (j + 1 + 1) (setArrayIndex j settings) r'
                 (devs ++ [mkDeviceInScene _ d (load_transform (setArrayIndex j settings))]))
      as (added & -> & Hlen).
    eexists (_ :: added). rewrite <- app_assoc. split; [done|]. simpl length. lia.
  - destruct (IH (j + 1 + 1) (setArrayIndex j settings) r' devs) as (added & -> & Hlen).
    exists added. split; [done|]. lia.
  - destruct (IH (j + 1 + 1) (setArrayIndex j settings) r' devs) as (added & -> & Hlen).
    exists added. split; [done|]. lia.
Qed.

(** Of [devicesSize] persisted entries of a scene, the devices loop loads
    at most every second one. *)
Lemma load_devices_at_most_half (devicesSize : Z) (settings : QSettings) (r : Registry) :
  0 <= devicesSize ->
  Z.of_nat (length (load_devices (Z.to_nat devicesSize) 0 devicesSize settings r []).1.1)
  <= (devicesSize + 1) / 2.
Proof.
  intros Hsize.
  destruct (load_devices_extends (Z.to_nat devicesSize) 0 devicesSize settings r [])
    as (added & -> & Hlen).
  simpl. rewrite Z.sub_0_r in Hlen.
  assert (0 <= (devicesSize + 1) / 2) by (apply Z.div_pos; lia). lia.
Qed.
End LoadLoops.

(** ** Save and Load on concrete scenes *)

Section RoundTrip.
Local Existing Instance ex_Types.
Local Existing Instance ex_Externals.

(** C2, what the code does: a scene holding device A1 with the nine
    transform fields 1 to 9 is saved to an empty store and loaded into a
    backend whose provider resolves A1.  [Save] writes location y and
    rotation yaw under the one key "t.y", so location y comes back as the
    yaw, 8 instead of 2.  A scene holding A1 and A2 is persisted with both
    entries and comes back holding A1 only: the loading loop advances its
    index twice per entry. *)
Theorem save_load_changes_scene :
  scenes <$> save_then_load (backend_with placed_scene) fresh_backend =
    Some [mkScene _ [mkDeviceInScene _ device_A
                       (mkTransform (mkVector3 (number 1) (number 8) (number 3))
                                    (mkVector3 (number 4) (number 5) (number 6))
                                    (mkRotator (number 7) (number 8) (number 9)))] []] /\
  Save (backend_with pair_scene) ∅ ≫= (.!! "scenes/1/devices/size") =
    Some (QVariant_int 2) /\
  Save (backend_with pair_scene) ∅ ≫= (.!! "scenes/1/devices/2/id") =
    Some (QVariant_string "A2") /\
  scenes <$> save_then_load (backend_with pair_scene) fresh_backend =
    Some [mkScene _ [mkDeviceInScene _ device_A identity_transform] []].
Proof. repeat split; vm_compute; reflexivity. Qed.

(** C3, what the code does: the persisted scene holds an entry of an
    unregistered provider type, then A1, then A2, both resolvable.  The
    first entry is skipped, and so is A1, the entry after it, which the
    loop never reads: the scene comes back holding A2 only.  The lookup of
    the unregistered type leaves a null entry in [deviceProviders]. *)
Theorem load_misses_entry_after_skipped :
  Save (backend_with stray_scene) ∅ ≫= (.!! "scenes/1/devices/size") =
    Some (QVariant_int 3) /\
  Save (backend_with stray_scene) ∅ ≫= (.!! "scenes/1/devices/1/id") =
    Some (QVariant_string "Z9") /\
  Save (backend_with stray_scene) ∅ ≫= (.!! "scenes/1/devices/2/id") =
    Some (QVariant_string "A1") /\
  Save (backend_with stray_scene) ∅ ≫= (.!! "scenes/1/devices/3/id") =
    Some (QVariant_string "A2") /\
  Registry_find (ex_GetProviderTypeFromUniqueId "Z9") (deviceProviders fresh_backend) = None /\
  (Registry_find (ex_GetProviderTypeFromUniqueId "A1") (deviceProviders fresh_backend)
     ≫= (.≫= (fun p => GetDeviceFromUniqueId p "A1"))) = Some device_A /\
  scenes <$> save_then_load (backend_with stray_scene) fresh_backend =
    Some [mkScene _ [mkDeviceInScene _ device_A2 identity_transform] []] /\
  deviceProviders <$> save_then_load (backend_with stray_scene) fresh_backend =
    Some (ex_registry ++ [(3%nat, None)]).
Proof. repeat split; vm_compute; reflexivity. Qed.
End RoundTrip.

(** ** The order of equivalent entries *)

Section Stability.
Local Existing Instance ex_Types.

(** C4 as stated fails: the sort is [std::sort], and [std::sort] does not
    keep equivalent entries in their order.  The scene holds seventeen
    devices of provider A, which the provider's [compare] makes equivalent.
    With libstdc++'s [std::sort] the dirty block goes through; the median
    step swaps the entries 0 and 8, the partition swaps 1 with 16, 2 with 15
    and so on up to 8 with 9, and the final insertion sort moves nothing.
    The scene is left with the same devices in another order. *)
Lemma std_sort_not_stable :
  Registry_ordered (deviceProviders (backend_with crowded_scene)) /\
  is_Some (@refresh _ ex_Externals_libstdcxx (backend_with crowded_scene)
                    (thread_init (backend_with crowded_scene))) /\
  forall st1 evs1,
    @refresh _ ex_Externals_libstdcxx (backend_with crowded_scene)
             (thread_init (backend_with crowded_scene)) = Some (st1, evs1) ->
    (GetUniqueId ∘ device) <$> devices (Locals.renderScene st1) =
      ["A8"; "A16"; "A15"; "A14"; "A13"; "A12"; "A11"; "A10"; "A9"; "A0"; "A7"; "A6"; "A5";
       "A4"; "A3"; "A2"; "A1"] /\
    (GetUniqueId ∘ device) <$> devices (Locals.renderScene st1) ≡ₚ
      (GetUniqueId ∘ device) <$> devices crowded_scene /\
    sorted_by (sort_comparator (deviceProviders (backend_with crowded_scene)))
              (devices (Locals.renderScene st1)) /\
    ~ stable_on (sort_comparator (deviceProviders (backend_with crowded_scene)))
                (devices (select_scene (scenes (backend_with crowded_scene))
                                       (activeSceneIndex (backend_with crowded_scene))))
                (devices (Locals.renderScene st1)).
Proof.
  split; [apply ex_registry_ordered|]. split.
  - unfold refresh. replace (providers_live _ _) with true by (by vm_compute).
    destruct (flatten _ _ _). by eexists.
  - intros st1 evs1 (_ & _ & Hscene & _)%refresh_inv. rewrite Hscene. cbn [devices].
    split; [by vm_compute|]. split.
    { refine (bool_decide_unpack _ _). by vm_compute. }
    split.
    { vm_compute. repeat (constructor; [by repeat constructor|]). constructor. }
    intros Hstable.
    specialize (Hstable (mkDeviceInScene _ (numbered_device 0) identity_transform)).
    apply (f_equal (fmap (GetUniqueId ∘ device))) in Hstable.
    vm_compute in Hstable. discriminate Hstable.
Qed.
End Stability.

(** ** The keys Save writes *)

Section SaveKeys.
Context `{Types}.
Implicit Types (s : QSettings) (provided : gmap string QVariant).

Lemma prefix_empty (k : string) : String.prefix "" k = true.
Proof. by destruct k. Qed.

Lemma prefix_app (a p k : string) :
  String.prefix a p = true -> String.prefix a (p +:+ k) = true.
Proof.
  revert p. induction a as [|c a IH]; intros p; [by rewrite !prefix_empty|].
  destruct p as [|c' p]; simpl; [done|].
  destruct (Ascii.ascii_dec c c'); [apply IH|done].
Qed.

Lemma prefix_trans (a p k : string) :
  String.prefix a p = true -> String.prefix p k = true -> String.prefix a k = true.
Proof.
  revert p k. induction a as [|c a IH]; intros p k; [by rewrite !prefix_empty|].
  destruct p as [|c' p]; simpl; [done|].
  destruct (Ascii.ascii_dec c c') as [->|]; [|done].
  destruct k as [|c'' k]; simpl; [done|].
  destruct (Ascii.ascii_dec c' c''); [apply IH|done].
Qed.

(** Inside the array "scenes" every full key starts with "scenes/". *)
Lemma groupPrefix_inside_scenes n s :
  inside_scenes n s -> String.prefix "scenes/" (groupPrefix s) = true.
Proof.
  intros (gs & g0 & Hstack & _ & Hg0). unfold groupPrefix.
  rewrite Hstack, rev_app_distr. simpl.
  assert (Hfold : forall l acc, String.prefix "scenes/" acc = true ->
            String.prefix "scenes/"
              (foldl (fun acc g => acc +:+ QSettingsGroup_toString g +:+ "/") acc l) = true).
  { induction l as [|g l IH]; intros acc Hacc; simpl; [done|].
    apply IH. by apply prefix_app. }
  apply Hfold. unfold QSettingsGroup_toString. rewrite Hg0.
  destruct (0 <? num g0); simpl; first [done|apply prefix_empty].
Qed.

Lemma setValue_writing provided n key v s :
  writing_scenes provided n s -> writing_scenes provided n (setValue key v s).
Proof.
  intros [Hin Hk]. split; [done|]. intros k. unfold setValue. simpl.
  rewrite lookup_insert. case_decide as Hkey; [|apply Hk].
  intros _. right. subst k. apply prefix_app. by eapply groupPrefix_inside_scenes.
Qed.

Lemma remove_accounted provided key s :
  keys_accounted provided s -> keys_accounted provided (remove key s).
Proof.
  intros Hk k [v Hv]. apply Hk. unfold remove in Hv. simpl in Hv.
  apply map_lookup_filter_Some in Hv as [Hv _]. by eexists.
Qed.

Lemma setArrayIndex_writing provided n i s :
  writing_scenes provided n s -> writing_scenes provided n (setArrayIndex i s).
Proof.
  intros [(gs & g0 & Hstack & Hlen & Hg0) Hk]. unfold setArrayIndex. rewrite Hstack.
  destruct gs as [|g gs]; simpl.
  - destruct (num g0 =? -1); (split; [|done]).
    + exists [], g0. by rewrite Hstack.
    + by exists [], (QSettingsGroup_setArrayIndex (Z.max i 0) g0).
  - destruct (num g =? -1); (split; [|done]).
    + exists (g :: gs), g0. by rewrite Hstack.
    + by exists (QSettingsGroup_setArrayIndex (Z.max i 0) g :: gs), g0.
Qed.

Lemma beginWriteArray_writing provided n prefix s :
  writing_scenes provided n s -> writing_scenes provided (S n) (beginWriteArray prefix s).
Proof.
  intros [(gs & g0 & Hstack & Hlen & Hg0) Hk]. split.
  - exists (mkQSettingsGroup prefix 0 0 :: gs), g0. simpl. rewrite Hstack. by rewrite Hlen.
  - unfold beginWriteArray. by apply remove_accounted.
Qed.

Lemma endArray_writing provided n s :
  writing_scenes provided (S n) s -> writing_scenes provided n (endArray s).
Proof.
  intros [(gs & g0 & Hstack & Hlen & Hg0) Hk].
  destruct gs as [|g gs]; [done|]. simpl in Hlen.
  assert (writing_scenes provided n (mkQSettings (entries s) (gs ++ [g0]))) as Hw.
  { split; [|done]. exists gs, g0. split; [done|]. split; [lia|done]. }
  unfold endArray. rewrite Hstack. simpl.
  destruct (maxNum g =? -1); [done|]. by apply setValue_writing.
Qed.

(** The last [endArray] of [Save] writes "scenes/size". *)
Lemma endArray_scenes_accounted provided s :
  writing_scenes provided 0 s -> keys_accounted provided (endArray s).
Proof.
  intros [(gs & g0 & Hstack & Hlen & Hg0) Hk]. destruct gs; [|done]. simpl in Hstack.
  unfold endArray. rewrite Hstack. destruct (maxNum g0 =? -1); [done|].
  intros k. unfold setValue, actualKey, groupPrefix. simpl.
  rewrite lookup_insert. case_decide as Hkey; [|apply Hk].
  intros _. right. subst k. by rewrite Hg0.
Qed.

Lemma confined_writing provided n save s :
  confined save -> writing_scenes provided n s -> writing_scenes provided n (save s).
Proof.
  intros Hc [Hin Hk]. destruct (Hc s) as [Hstack Hkeys]. split.
  - destruct Hin as (gs & g0 & ? & ? & ?). exists gs, g0. by rewrite Hstack.
  - intros k [Hold|Hnew]%Hkeys; [by apply Hk|].
    right. eapply prefix_trans; [|exact Hnew]. by eapply groupPrefix_inside_scenes.
Qed.

Lemma save_device_writing provided n dis s :
  writing_scenes provided n s -> writing_scenes provided n (save_device dis s).
Proof. intros Hw. unfold save_device. by repeat apply setValue_writing. Qed.

Lemma save_devices_writing provided n devs j s :
  writing_scenes provided n s -> writing_scenes provided n (save_devices devs j s).
Proof.
  revert j s. induction devs as [|dis devs IH]; intros j s Hw; simpl; [done|].
  by apply IH, save_device_writing, setArrayIndex_writing.
Qed.

Lemma save_effects_writing provided n effs j s :
  Forall (fun e => confined (Effect_Save e)) effs ->
  writing_scenes provided n s -> writing_scenes provided n (save_effects effs j s).
Proof.
  intros Heffs. revert j s. induction Heffs as [|e effs He _ IH]; intros j s Hw; simpl; [done|].
  by apply IH, confined_writing, setArrayIndex_writing.
Qed.

Lemma save_scenes_writing provided scs i s :
  Forall (fun scene => Forall (fun e => confined (Effect_Save e)) (effects scene)) scs ->
  writing_scenes provided 0 s -> writing_scenes provided 0 (save_scenes scs i s).
Proof.
  intros Hscs. revert i s. induction Hscs as [|scene scs Hscene _ IH]; intros i s Hw; simpl;
    [done|].
  apply IH.
  apply endArray_writing, save_devices_writing, beginWriteArray_writing.
  apply endArray_writing, save_effects_writing, beginWriteArray_writing; [done|].
  by apply setArrayIndex_writing.
Qed.

(** When the providers leave the group stack empty and the effects' [Save]
    is confined, every key [Save] leaves in the store was written by a
    provider or lies below "scenes". *)
Lemma Save_keys_accounted (b : Backend) (persisted after : gmap string QVariant)
    (provided : QSettings) :
  save_providers (deviceProviders b) (mkQSettings ∅ []) = Some provided ->
  groupStack provided = [] ->
  Forall (fun scene => Forall (fun e => confined (Effect_Save e)) (effects scene)) (scenes b) ->
  Save b persisted = Some after ->
  forall k, is_Some (after !! k) ->
            is_Some (entries provided !! k) \/ String.prefix "scenes/" k = true.
Proof.
  intros Hprov Hstack Heffs Hsave. unfold Save, save_body in Hsave. simpl in Hsave.
  change (clear (QSettings_open persisted)) with (mkQSettings ∅ []) in Hsave.
  rewrite Hprov in Hsave. simpl in Hsave. simplify_eq.
  apply endArray_scenes_accounted, save_scenes_writing; [done|].
  split.
  - exists [], (mkQSettingsGroup "scenes" 0 0). simpl. by rewrite Hstack.
  - apply remove_accounted. intros k Hk. by left.
Qed.
End SaveKeys.

(** ** Save *)

Section Save.
Context `{Types}.

Lemma save_providers_live (r : Registry) (settings : QSettings) :
  Registry_live r -> is_Some (save_providers r settings).
Proof.
  intros Hr. revert settings.
  induction Hr as [|[t p] r [p' Hp] _ IH]; intros settings; simpl in *; [done|].
  subst p. apply IH.
Qed.

(** [Save] goes through when no registry entry is null. *)
Lemma Save_defined (b : Backend) (persisted : gmap string QVariant) :
  Registry_live (deviceProviders b) -> is_Some (Save b persisted).
Proof.
  intros Hr. unfold Save, save_body.
  by destruct (save_providers_live (deviceProviders b) (clear (QSettings_open persisted)) Hr)
    as [settings ->].
Qed.

(** C10: [Save] starts from an erased store.  What it leaves does not
    depend on what the store held: it is what the same call leaves in an
    empty store, so a key is in the store afterwards exactly when this call
    puts it there, with the value this call gives it.  When the providers
    leave the group stack empty and the effects write below their own group
    only, every key of the store afterwards was written by a provider or
    lies below "scenes". *)
Theorem Save_erases_store (b : Backend) (persisted : gmap string QVariant) :
  entries (clear (QSettings_open persisted)) = ∅ /\
  Save b persisted = Save b ∅ /\
  (forall k : string, Save b persisted ≫= (.!! k) = Save b ∅ ≫= (.!! k)) /\
  (forall (provided : QSettings) (after : gmap string QVariant),
     save_providers (deviceProviders b) (mkQSettings ∅ []) = Some provided ->
     groupStack provided = [] ->
     Forall (fun scene => Forall (fun e => confined (Effect_Save e)) (effects scene))
            (scenes b) ->
     Save b persisted = Some after ->
     forall k, is_Some (after !! k) ->
               is_Some (entries provided !! k) \/ String.prefix "scenes/" k = true).
Proof.
  split; [done|]. split; [done|]. split; [done|].
  intros provided after. apply Save_keys_accounted.
Qed.
End Save.

(** ** The properties on concrete backends *)

Section Witnesses.
Local Existing Instance ex_Types.
Local Existing Instance ex_Externals.

(** A key the store held is gone after [Save]. *)
Example Save_drops_stale_key :
  Save (backend_with pair_scene) {["stale" := QVariant_int 1]} ≫= (.!! "stale") = None /\
  Save (backend_with pair_scene) {["stale" := QVariant_int 1]} ≫= (.!! "scenes/size") =
    Some (QVariant_int 1).
Proof. split; vm_compute; reflexivity. Qed.

(** A store holding a stale key, saved over: every key left lies below
    "scenes". *)
Lemma Save_erases_store_witness :
  is_Some (Save (backend_with pair_scene) {["stale" := QVariant_int 1]}) /\
  forall after k,
    Save (backend_with pair_scene) {["stale" := QVariant_int 1]} = Some after ->
    is_Some (after !! k) -> String.prefix "scenes/" k = true.
Proof.
  split; [apply Save_defined, ex_registry_live|].
  intros after k Hsave Hk.
  destruct (proj2 (proj2 (proj2 (Save_erases_store (backend_with pair_scene)
                                   {["stale" := QVariant_int 1]})))
              (mkQSettings ∅ []) after eq_refl eq_refl
              ltac:(repeat constructor) Hsave k Hk) as [[v Hv]|Hscenes].
  - simpl in Hv. by rewrite lookup_empty in Hv.
  - exact Hscenes.
Defined.


(** The two-provider scenario, sorted by the insertion sort. *)
Lemma sort_groups_provider_types_witness :
  sort_contract std_sort /\
  Registry_ordered (deviceProviders scenario_backend) /\
  refresh scenario_backend (thread_init scenario_backend) =
    Some (scenario_refreshed, [SceneCopy; SortDevices; Flatten]) /\
  contiguous_by_type (Locals.devices scenario_refreshed).
Proof.
  split; [apply insertion_sort_contract|]. split; [apply ex_registry_ordered|].
  split; [reflexivity|].
  apply (sort_groups_provider_types scenario_backend (thread_init scenario_backend)
                                    scenario_refreshed [SceneCopy; SortDevices; Flatten]).
  - apply insertion_sort_contract.
  - apply ex_registry_ordered.
  - reflexivity.
Defined.

(** A scene with a device of provider A only: provider B is registered and
    has no device. *)
Lemma absent_provider_gets_empty_range_witness :
  reachable (thread_init (backend_with placed_scene)) /\
  Registry_live (deviceProviders (backend_with placed_scene)) /\
  exists st' evs,
    tick (backend_with placed_scene) double_zero (thread_init (backend_with placed_scene)) =
      Some (st', evs) /\
    forall type : ProviderType,
      is_Some (Registry_find type (deviceProviders (backend_with placed_scene))) ->
      Forall (fun d => GetType d <> type) (Locals.devices st') ->
      exists params,
        dispatched type evs = Some params /\
        colorsBegin params = colorsEnd params /\
        devicesBegin params = devicesEnd params /\
        boundingBoxesBegin params = boundingBoxesEnd params /\
        let update := scan_partition type (Locals.devices st') params in
        colorsBegin update = colorsEnd update /\
        devicesBegin update = devicesEnd update /\
        boundingBoxesBegin update = boundingBoxesEnd update.
Proof.
  split; [apply reachable_init|]. split; [apply ex_registry_live|].
  apply (absent_provider_gets_empty_range (backend_with placed_scene) double_zero
                                          (thread_init (backend_with placed_scene))).
  - apply reachable_init.
  - apply ex_registry_live.
  - reflexivity.
Defined.

(** Two ticks of the two-provider scenario. *)
Lemma dirty_tick_repeats_witness :
  scenesAreDirty scenario_backend = true /\
  tick scenario_backend double_zero (thread_init scenario_backend) =
    Some (scenario_ticked, scenario_events) /\
  exists st2 evs2,
    tick scenario_backend double_zero scenario_ticked = Some (st2, evs2) /\
    In SceneCopy evs2 /\ In SortDevices evs2 /\ In Flatten evs2.
Proof.
  split; [reflexivity|]. split; [reflexivity|].
  apply (dirty_tick_repeats scenario_backend double_zero double_zero
                            (thread_init scenario_backend) scenario_ticked scenario_events);
    reflexivity.
Defined.


(** The scenario with the insertion sort in the place of
    [std::sort]. *)
Lemma scenario_tick_witness :
  sort_contract std_sort /\
  exists st' evs,
    tick scenario_backend double_zero (thread_init scenario_backend) = Some (st', evs) /\
    Locals.colors st' = [7; 7; 7]%nat /\
    exists params_A params_B,
      dispatched 1%nat evs = Some params_A /\
      dispatched 2%nat evs = Some params_B /\
      Cursor_distance (devicesBegin params_A) (devicesEnd params_A) = 0%nat /\
      Cursor_distance (devicesBegin params_B) (devicesEnd params_B) = 0%nat.
Proof.
  split; [apply insertion_sort_contract|].
  destruct (scenario_tick ex_Externals double_zero insertion_sort_contract)
    as (st' & evs & Ht & Hcolors & _ & _ & pA & pB & HA & HB & _ & HdA & _ & _ & HdB & _).
  exists st', evs. split; [exact Ht|]. split; [exact Hcolors|].
  exists pA, pB. auto.
Defined.

(** [Start] on a running backend, [Stop] on a stopped one. *)
Lemma start_stop_idempotent_witness :
  IsRunning scenario_backend = true /\
  Start scenario_backend = Some (scenario_backend, []) /\
  IsRunning fresh_backend = false /\
  Stop fresh_backend = Some (fresh_backend, []).
Proof.
  split; [reflexivity|].
  split; [apply (proj1 (start_stop_idempotent scenario_backend)); reflexivity|].
  split; [reflexivity|].
  apply (proj1 (proj2 (start_stop_idempotent fresh_backend))); reflexivity.
Defined.
End Witnesses.

(** * Further properties *)

(** ** The arrays of a tick *)

Section Arrays.
Context `{Externals}.

(** X1: the range the partition scan leaves for a provider type is the first
    run of devices of that type: the same two positions for colours,
    devices and bounding boxes, no device of the type in front of the
    range, only devices of the type inside it, and a device of another type
    (or the end of the array) right behind it.  Devices of the type further
    back are outside the range. *)
Theorem scan_partition_first_run (type : ProviderType) (devs : list Device)
    (update : LightUpdateParams) :
  exists b e : nat,
    scan_partition type devs update =
      mkLightUpdateParams true (Some b) (Some e) true (Some b) (Some e) true (Some b) (Some e) /\
    (b <= e <= length devs)%nat /\
    (forall i d, (i < b)%nat -> devs !! i = Some d -> GetType d <> type) /\
    (forall i d, (b <= i < e)%nat -> devs !! i = Some d -> GetType d = type) /\
    (forall d, devs !! e = Some d -> GetType d <> type).
Proof.
  set (b := leading (fun dev => negb (GetType dev =? type)%nat) devs).
  set (n := leading (fun dev => (GetType dev =? type)%nat) (drop b devs)).
  exists b, (b + n)%nat. split; [apply scan_partition_cursors|].
  pose proof (leading_le (fun dev => negb (GetType dev =? type)%nat) devs) as Hb. fold b in Hb.
  pose proof (leading_le (fun dev => (GetType dev =? type)%nat) (drop b devs)) as Hn.
  fold n in Hn. rewrite length_drop in Hn.
  split; [lia|]. split; [|split].
  - intros i d Hi Hd.
    destruct (leading_holds _ _ _ Hi) as (d' & Hd' & Hc). simplify_eq.
    by apply negb_true_iff, Nat.eqb_neq in Hc.
  - intros i d Hi Hd.
    destruct (leading_holds (fun dev => (GetType dev =? type)%nat) (drop b devs) (i - b))
      as (d' & Hd' & Hc); [fold n; lia|].
    rewrite lookup_drop in Hd'. replace (b + (i - b))%nat with i in Hd' by lia.
    simplify_eq. by apply Nat.eqb_eq.
  - intros d Hd.
    destruct (leading_stop (fun dev => (GetType dev =? type)%nat) (drop b devs))
      as (d' & Hd' & Hc).
    { fold n. rewrite length_drop. apply lookup_lt_Some in Hd. lia. }
    fold n in Hd'. rewrite lookup_drop in Hd'. simplify_eq. by apply Nat.eqb_neq.
Qed.

(** Position by position, the flattened boxes belong to the flattened
    devices. *)
Lemma flat_aligned (ds : list DeviceInScene) (i : nat) (box : Box) :
  flat_boxes ds !! i = Some box ->
  exists dis, dis ∈ ds /\ flat_devices ds !! i = Some (device dis) /\
              box ∈ GetLightBoundingBoxes dis.
Proof.
  revert i. induction ds as [|d ds IH]; intros i Hi; [done|].
  unfold flat_boxes, flat_devices in *. simpl in *.
  destruct (decide (i < length (GetLightBoundingBoxes d))%nat) as [Hlt|Hge].
  - rewrite lookup_app_l in Hi by done. exists d. split; [left|].
    split; [|by eapply list_elem_of_lookup_2].
    rewrite lookup_app_l by (by rewrite length_replicate).
    by apply lookup_replicate_2.
  - rewrite lookup_app_r in Hi by lia.
    destruct (IH _ Hi) as (dis & Hdis & Hdev & Hbox).
    exists dis. split; [by right|]. split; [|done].
    rewrite lookup_app_r by (rewrite length_replicate; lia).
    by rewrite length_replicate.
Qed.

(** X2: after the dirty block the arrays are aligned entry by entry: the
    bounding box at a position is one of the boxes of a device-in-scene of
    the sorted scene, and the device at the same position is that entry's
    device. *)
Theorem flatten_boxes_belong_to_devices (b : Backend) (st st1 : Locals.t)
    (evs1 : list Event) :
  refresh b st = Some (st1, evs1) ->
  forall (i : nat) (box : Box),
    Locals.boundingBoxes st1 !! i = Some box ->
    exists dis,
      dis ∈ devices (Locals.renderScene st1) /\
      Locals.devices st1 !! i = Some (device dis) /\
      box ∈ GetLightBoundingBoxes dis.
Proof.
  intros (_ & _ & Hscene & Hbb & Hdevs & _)%refresh_inv i box.
  rewrite Hscene, Hbb, Hdevs. simpl. apply flat_aligned.
Qed.

(** X3: the dirty block clears [boundingBoxes] and [devices] but only
    resizes [colors]: a colour at a position that survives is the colour
    that was there before, whatever device the position now belongs to, and
    a position that is new holds the value-initialised colour. *)
Theorem refresh_keeps_old_colors (b : Backend) (st st1 : Locals.t) (evs1 : list Event) :
  refresh b st = Some (st1, evs1) ->
  forall i : nat,
    (i < length (Locals.boundingBoxes st1))%nat ->
    Locals.colors st1 !! i =
      if decide (i < length (Locals.colors st))%nat then Locals.colors st !! i
      else Some HsluvColor_init.
Proof.
  intros (_ & _ & _ & Hbb & _ & Hcolors & _)%refresh_inv i Hi.
  rewrite Hcolors. rewrite Hbb in Hi. unfold resize. case_decide as Hold.
  - rewrite lookup_app_l by (rewrite length_take; lia). by apply lookup_take_lt.
  - rewrite lookup_app_r by (rewrite length_take; lia).
    rewrite length_take. apply lookup_replicate_2. lia.
Qed.
End Arrays.

(** ** Effects and dispatch *)

Section Dispatch.
Context `{Externals}.

(** Effects that keep the length of the colour vector, run one after the
    other, keep it; running them does not change what their [Update]
    does. *)
Lemma run_effects_length (deltaTime : Duration) (effs : list Effect)
    (boundingBoxes : list Box) (colors : list HsluvColor) :
  Forall length_preserving (run_effects deltaTime effs boundingBoxes colors).1 ->
  length (run_effects deltaTime effs boundingBoxes colors).2 = length colors.
Proof.
  revert colors. induction effs as [|e effs IH]; intros colors; simpl; [done|].
  destruct e as [S s t u sv]. unfold Effect_Update, Effect_Tick. simpl.
  destruct (u (t deltaTime s) boundingBoxes colors) as [s' colors'] eqn:Hu.
  destruct (run_effects deltaTime effs boundingBoxes colors') as [rest colors''] eqn:Hrun.
  simpl. intros [He Hrest]%Forall_cons.
  specialize (IH colors'). rewrite Hrun in IH. simpl in IH. rewrite IH by done.
  specialize (He (t deltaTime s) boundingBoxes colors). simpl in He. by rewrite Hu in He.
Qed.

(** X4: a tick keeps the three arrays at one length when the effects it ran
    do not resize the colour vector: after a dirty tick always, after any
    other tick if the arrays had one length before. *)
Theorem tick_keeps_arrays_aligned (b : Backend) (deltaTime : Duration) (st st' : Locals.t)
    (evs : list Event) :
  tick b deltaTime st = Some (st', evs) ->
  (scenesAreDirty b = false ->
   length (Locals.boundingBoxes st) = length (Locals.devices st) /\
   length (Locals.devices st) = length (Locals.colors st)) ->
  Forall length_preserving (effects (Locals.renderScene st')) ->
  length (Locals.boundingBoxes st') = length (Locals.devices st') /\
  length (Locals.devices st') = length (Locals.colors st').
Proof.
  intros (st1 & evs1 & m & evs2 & Hr & _ & _ & _ & Hbb & Hdevs & _ & Hrun)%tick_inv
         Hclean Heffs.
  assert (length (Locals.boundingBoxes st1) = length (Locals.devices st1) /\
          length (Locals.devices st1) = length (Locals.colors st1)) as [Hl1 Hl2].
  { destruct (scenesAreDirty b).
    - apply refresh_inv in Hr as (_ & _ & _ & Hbb1 & Hdevs1 & Hcolors1 & _).
      rewrite Hbb1, Hdevs1, Hcolors1, length_resize, flat_lengths. done.
    - simplify_eq. by apply Hclean. }
  rewrite Hbb, Hdevs. split; [done|].
  pose proof (run_effects_length deltaTime (effects (Locals.renderScene st1))
                (Locals.boundingBoxes st1) (Locals.colors st1)) as Hlen.
  rewrite <- Hrun in Hlen. simpl in Hlen. rewrite Hlen by done. done.
Qed.

(** On a pristine map the dispatch loop calls [Update] once per registry
    entry, in order, with the default parameters. *)
Lemma dispatch_updates (r : Registry) (m m' : gmap nat LightUpdateParams) (evs : list Event) :
  pristine m -> dispatch r m = Some (m', evs) ->
  provider_updates evs = (fun dp => (dp.1, LightUpdateParams_init)) <$> r.
Proof.
  revert m m' evs. induction r as [|[t p] r IH]; intros m m' evs Hm Hd; simpl in *.
  - by simplify_eq.
  - destruct (lightUpdates_index t m) as [params m1] eqn:Hidx.
    destruct p as [p|]; [|done].
    destruct (dispatch r m1) as [[m2 evs2]|] eqn:Hd2; [|done]. simplify_eq.
    destruct (lightUpdates_index_pristine t m Hm) as [Hparams Hm1].
    rewrite Hidx in Hparams, Hm1. simpl in *. subst params.
    unfold provider_updates in *. simpl. f_equal. by eapply IH.
Qed.

(** X5: on every tick the thread runs, from its start on, each entry of
    [deviceProviders] gets exactly one [Update], in the order of the
    registry, and always with the value-initialised [LightUpdateParams]:
    all three dirty flags unset and no range. *)
Theorem tick_updates_every_provider_with_default (b : Backend) (deltaTime : Duration)
    (st st' : Locals.t) (evs : list Event) :
  reachable st ->
  tick b deltaTime st = Some (st', evs) ->
  provider_updates evs = (fun dp => (dp.1, LightUpdateParams_init)) <$> deviceProviders b.
Proof.
  intros Hreach (st1 & evs1 & m' & evs2 & Hr & Hd & -> & _)%tick_inv.
  pose proof (reachable_pristine _ Hreach) as Hp.
  assert (pristine (Locals.lightUpdates st1) /\ provider_updates evs1 = []) as [Hp1 Hevs1].
  { destruct (scenesAreDirty b).
    - split; [by eapply refresh_pristine|]. by apply refresh_inv in Hr as (_ & -> & _).
    - by simplify_eq. }
  unfold provider_updates in *. rewrite omap_app, Hevs1. simpl.
  by eapply dispatch_updates.
Qed.

(** X6: a tick that finds [scenesAreDirty] unset does not read the scene
    list or the active scene index: it keeps the flattened arrays and the
    snapshot's device list, runs the snapshot's effects on them, and does
    the same on any backend with the same providers. *)
Theorem clean_tick_ignores_scenes (b b' : Backend) (deltaTime : Duration)
    (st st' : Locals.t) (evs : list Event) :
  scenesAreDirty b = false ->
  scenesAreDirty b' = false ->
  deviceProviders b' = deviceProviders b ->
  tick b deltaTime st = Some (st', evs) ->
  tick b' deltaTime st = Some (st', evs) /\
  Locals.boundingBoxes st' = Locals.boundingBoxes st /\
  Locals.devices st' = Locals.devices st /\
  devices (Locals.renderScene st') = devices (Locals.renderScene st) /\
  (effects (Locals.renderScene st'), Locals.colors st') =
    run_effects deltaTime (effects (Locals.renderScene st)) (Locals.boundingBoxes st)
                (Locals.colors st) /\
  Forall (fun ev => exists type params, ev = ProviderUpdate type params) evs.
Proof.
  intros Hclean Hclean' Hregs Ht. split.
  { unfold tick in *. rewrite Hclean', Hregs. by rewrite Hclean in Ht. }
  apply tick_inv in Ht as (st1 & evs1 & m & evs2 & Hr & Hd & -> & _ & Hbb & Hdevs & Hscene & Hrun).
  rewrite Hclean in Hr. simplify_eq. simpl. repeat (split; [done|]).
  clear -Hd. revert Hd. generalize (Locals.lightUpdates st1). revert m evs2.
  induction (deviceProviders b) as [|[t p] r IH]; intros m' evs m Hd; simpl in *.
  - simplify_eq. constructor.
  - destruct (lightUpdates_index t m) as [params m1]. destruct p as [p|]; [|done].
    destruct (dispatch r m1) as [[m2 evs2]|] eqn:Hd2; [|done]. simplify_eq.
    constructor; [by eauto|]. by eapply IH.
Qed.

(** X7: until something sets [scenesAreDirty], the thread renders the scene
    it found when it started without ever flattening it: the first tick
    goes through with [boundingBoxes] and [devices] empty and runs the
    active scene's effects on an empty colour vector. *)
Theorem unmarked_scene_is_not_flattened (b : Backend) (deltaTime : Duration) :
  scenesAreDirty b = false ->
  Registry_live (deviceProviders b) ->
  exists st' evs,
    tick b deltaTime (thread_init b) = Some (st', evs) /\
    Locals.boundingBoxes st' = [] /\
    Locals.devices st' = [] /\
    devices (Locals.renderScene st') =
      devices (select_scene (scenes b) (activeSceneIndex b)) /\
    (effects (Locals.renderScene st'), Locals.colors st') =
      run_effects deltaTime (effects (select_scene (scenes b) (activeSceneIndex b))) [] [].
Proof.
  intros Hclean Hlive.
  destruct (tick_defined b deltaTime (thread_init b) Hlive) as [[st' evs] Ht].
  { intros Hd. congruence. }
  exists st', evs. split; [done|].
  apply tick_inv in Ht as (st1 & evs1 & m & evs2 & Hr & _ & _ & _ & Hbb & Hdevs & Hscene & Hrun).
  rewrite Hclean in Hr. by simplify_eq.
Qed.
End Dispatch.

(** ** The registry and the life cycle *)

Section LifeCycle.
Context `{Externals}.

Lemma for_each_provider_live (ev : ProviderType -> Event) (r : Registry) :
  Registry_live r -> for_each_provider ev r = Some (ev <$> r.*1).
Proof.
  induction 1 as [|[t p] r [p' Hp] _ IH]; simpl in *; [done|]. subst p. by rewrite IH.
Qed.

(** X8: on a stopped backend without null provider, [Start] starts the
    providers in registry order and then spawns the thread, and [Stop] right
    after joins the thread first and then stops the providers in the same
    order.  Scenes, active index, dirty flag and providers are the same
    afterwards; [stopRequested] stays set until the next [Start], which goes
    through again and clears it. *)
Theorem Start_then_Stop (b : Backend) :
  IsRunning b = false ->
  Registry_live (deviceProviders b) ->
  exists b1 b2 b3,
    Start b = Some (b1, (ProviderStart <$> (deviceProviders b).*1) ++ [ThreadSpawn]) /\
    IsRunning b1 = true /\ stopRequested b1 = false /\
    Stop b1 = Some (b2, ThreadJoin :: (ProviderStop <$> (deviceProviders b).*1)) /\
    b2 = mkBackend _ true false (scenes b) (activeSceneIndex b) (scenesAreDirty b)
                   (deviceProviders b) /\
    Start b2 = Some (b3, (ProviderStart <$> (deviceProviders b).*1) ++ [ThreadSpawn]) /\
    b3 = b1.
Proof.
  intros Hrun Hlive.
  exists (mkBackend _ false true (scenes b) (activeSceneIndex b) (scenesAreDirty b)
                    (deviceProviders b)),
         (mkBackend _ true false (scenes b) (activeSceneIndex b) (scenesAreDirty b)
                    (deviceProviders b)),
         (mkBackend _ false true (scenes b) (activeSceneIndex b) (scenesAreDirty b)
                    (deviceProviders b)).
  unfold Start, Stop. rewrite Hrun. simpl.
  rewrite !for_each_provider_live by done. done.
Qed.

Lemma for_each_provider_null (ev : ProviderType -> Event) (r : Registry) :
  Registry_has_null r -> for_each_provider ev r = None.
Proof.
  induction 1 as [[t p] r Hp|[t p] r _ IH]; simpl in *.
  - by subst p.
  - destruct p; [by rewrite IH|done].
Qed.

Lemma save_providers_null (r : Registry) (settings : QSettings) :
  Registry_has_null r -> save_providers r settings = None.
Proof.
  intros Hr. revert settings. induction Hr as [[t p] r Hp|[t p] r _ IH]; intros settings;
    simpl in *.
  - by subst p.
  - destruct p; [apply IH|done].
Qed.

Lemma load_providers_null (r : Registry) (settings : QSettings) :
  Registry_has_null r -> load_providers r settings = None.
Proof.
  intros Hr. revert settings. induction Hr as [[t p] r Hp|[t p] r _ IH]; intros settings;
    simpl in *.
  - by subst p.
  - destruct p as [p|]; [|done]. destruct (DeviceProvider_Load p settings) as [p' settings'].
    by rewrite IH.
Qed.

Lemma dispatch_null (r : Registry) (m : gmap nat LightUpdateParams) :
  Registry_has_null r -> dispatch r m = None.
Proof.
  intros Hr. revert m. induction Hr as [[t p] r Hp|[t p] r _ IH]; intros m; simpl in *.
  - subst p. by destruct (lightUpdates_index t m).
  - destruct (lightUpdates_index t m) as [params m']. destruct p; [by rewrite IH|done].
Qed.

(** X9: every operation that walks [deviceProviders] calls a member through
    each pointer without a null check: with one null entry in the map,
    [Start] on a stopped backend, [Stop] on a running one, [Save], [Load]
    and every tick are undefined. *)
Theorem null_provider_breaks_every_walk (b : Backend) (deltaTime : Duration) (st : Locals.t)
    (persisted : gmap string QVariant) :
  Registry_has_null (deviceProviders b) ->
  (IsRunning b = false -> Start b = None) /\
  (IsRunning b = true -> Stop b = None) /\
  Save b persisted = None /\
  Load b persisted = None /\
  tick b deltaTime st = None.
Proof.
  intros Hnull. unfold Start, Stop, Save, save_body, Load, tick.
  rewrite !for_each_provider_null, save_providers_null, load_providers_null by done.
  split; [by intros ->|]. split; [by intros ->|]. split; [done|]. split; [done|].
  destruct (if scenesAreDirty b then refresh b st else Some (st, [])) as [[st1 evs1]|]; [|done].
  destruct (run_effects _ _ _ _). by rewrite dispatch_null.
Qed.

Lemma Registry_find_app_None (r r' : Registry) (type : ProviderType) :
  Registry_find type r = None -> Registry_find type (r ++ r') = Registry_find type r'.
Proof.
  induction r as [|[t p] r IH]; simpl; [done|]. destruct (t =? type)%nat; [done|apply IH].
Qed.

Lemma Registry_find_app_Some (r r' : Registry) (type : ProviderType) p :
  Registry_find type r = Some p -> Registry_find type (r ++ r') = Some p.
Proof.
  induction r as [|[t q] r IH]; simpl; [done|]. destruct (t =? type)%nat; [done|apply IH].
Qed.

(** X10: [GetDeviceProvider] returns the pointer registered for a type and
    leaves the backend as it is; for a type that is not registered it
    returns null and leaves one null entry for that type behind, which a
    second call returns without adding another, and with which [Start] is
    undefined. *)
Theorem GetDeviceProvider_unknown_type_leaves_null (b : Backend) (type : ProviderType) :
  (forall p, Registry_find type (deviceProviders b) = Some p ->
             GetDeviceProvider type b = (p, b)) /\
  (Registry_find type (deviceProviders b) = None ->
   exists b',
     GetDeviceProvider type b = (None, b') /\
     deviceProviders b' = deviceProviders b ++ [(type, None)] /\
     scenes b' = scenes b /\ activeSceneIndex b' = activeSceneIndex b /\
     scenesAreDirty b' = scenesAreDirty b /\ IsRunning b' = IsRunning b /\
     GetDeviceProvider type b' = (None, b') /\
     (IsRunning b = false -> Start b' = None)).
Proof.
  unfold GetDeviceProvider, Registry_index. split.
  - intros p ->. by destruct b.
  - intros Hnone. rewrite Hnone. eexists. split; [done|]. simpl.
    repeat (split; [done|]).
    rewrite Registry_find_app_None by done. simpl. rewrite Nat.eqb_refl. split; [done|].
    intros Hrun. unfold Start, IsRunning in *. simpl. rewrite Hrun.
    rewrite for_each_provider_null; [done|].
    apply Exists_app. right. by left.
Qed.

(** X11: a backend as the constructor leaves it, started: [Start] starts
    the one registered provider and spawns the thread; the thread begins on
    the empty scene, and every tick it runs, however many, updates that
    provider with the default parameters and does nothing else. *)
Theorem constructed_backend_idles (Hue : ProviderType) (hue : DeviceProvider)
    (deltaTimes : list Duration) :
  exists b1,
    Start (Backend_init Hue hue) = Some (b1, [ProviderStart Hue; ThreadSpawn]) /\
    Locals.renderScene (thread_init b1) = Scene_init /\
    exists st',
      thread_loop b1 deltaTimes (thread_init b1) =
        Some (st', replicate (length deltaTimes) [ProviderUpdate Hue LightUpdateParams_init]) /\
      Locals.renderScene st' = Scene_init /\
      Locals.colors st' = [] /\ Locals.boundingBoxes st' = [] /\ Locals.devices st' = [].
Proof.
  eexists. split; [reflexivity|]. split; [reflexivity|].
  set (b1 := mkBackend _ false true [] 0 false [(Hue, Some hue)]).
  assert (Hstep : forall deltaTime m,
            (m = ∅ \/ m = {[Hue := LightUpdateParams_init]}) ->
            tick b1 deltaTime (Locals.mk _ Scene_init m [] [] []) =
            Some (Locals.mk _ Scene_init {[Hue := LightUpdateParams_init]} [] [] [],
                  [ProviderUpdate Hue LightUpdateParams_init])).
  { intros deltaTime m Hm. unfold tick, lightUpdates_index. simpl.
    unfold lightUpdates_index.
    destruct Hm as [-> | ->].
    - by rewrite lookup_empty.
    - by rewrite lookup_singleton_eq. }
  assert (Hloop : forall m,
            (m = ∅ \/ m = {[Hue := LightUpdateParams_init]}) ->
            exists st',
              thread_loop b1 deltaTimes (Locals.mk _ Scene_init m [] [] []) =
                Some (st', replicate (length deltaTimes)
                                     [ProviderUpdate Hue LightUpdateParams_init]) /\
              Locals.renderScene st' = Scene_init /\
              Locals.colors st' = [] /\ Locals.boundingBoxes st' = [] /\
              Locals.devices st' = []).
  { induction deltaTimes as [|deltaTime rest IH]; intros m Hm.
    - eexists. by split.
    - simpl thread_loop. change (stopRequested b1) with false. cbv iota.
      rewrite (Hstep deltaTime m Hm).
      destruct (IH {[Hue := LightUpdateParams_init]}) as (st' & -> & Hst'); [by right|].
      exists st'. by split. }
  apply (Hloop ∅). by left.
Qed.
End LifeCycle.

(** ** One device entry, written and read back *)

Section DeviceEntry.
Context `{Types}.

Lemma append_inj_l (p a b : string) : p +:+ a = p +:+ b -> a = b.
Proof. induction p as [|c p IH]; simpl; [done|]. intros [= Heq]. by apply IH. Qed.

Lemma actualKey_inj (s : QSettings) (k1 k2 : string) :
  actualKey s k1 = actualKey s k2 -> k1 = k2.
Proof. apply append_inj_l. Qed.

(** Reading [key] in the current group after a [setValue] in that group. *)
Lemma value_setValue (key key' : string) (v : QVariant) (s : QSettings) :
  value key (setValue key' v s) = if decide (key' = key) then v else value key s.
Proof.
  unfold value, setValue, actualKey, groupPrefix. simpl. rewrite lookup_insert.
  case_decide as Hk.
  - apply append_inj_l in Hk. by rewrite decide_True.
  - rewrite decide_False; [done|]. by intros ->.
Qed.

(** Plain text passes the conversions unchanged. *)
Lemma c_str_plain (s : string) : plain_text s = true -> c_str s = s.
Proof.
  induction s as [|c s IH]; simpl; [done|].
  intros [[Hpos%Z.ltb_lt _]%andb_true_iff Hs]%andb_true_iff.
  rewrite (proj2 (Z.eqb_neq _ _)) by lia. by rewrite IH.
Qed.

Lemma convertToUnicode_plain (s : string) : plain_text s = true -> convertToUnicode 0 s = s.
Proof.
  induction s as [|c s IH]; simpl; [done|].
  intros [[_ Hascii]%andb_true_iff Hs]%andb_true_iff.
  by rewrite Hascii, IH.
Qed.

Lemma skip_bom_plain (s : string) : plain_text s = true -> skip_bom s = s.
Proof.
  destruct s as [|c0 [|c1 [|c2 rest]]]; simpl; try done.
  intros [[_ Hascii%Z.ltb_lt]%andb_true_iff _]%andb_true_iff.
  by rewrite (proj2 (Z.eqb_neq (byte_value c0) 0xEF)) by lia.
Qed.

(** A C string holds no NUL. *)
Lemma c_str_no_NUL (s : string) : has_NUL (c_str s) = false.
Proof.
  induction s as [|c s IH]; simpl; [done|].
  destruct (byte_value c =? 0) eqn:Hc; simpl; [done|]. by rewrite Hc.
Qed.

(** X12: what the devices loop of [Load] reads from the group the devices
    loop of [Save] has just written.  The unique id goes through
    [c_str()] and [QString::fromUtf8] on the way in and through [toUtf8()]
    on the way out: an id of ASCII characters without NUL comes back as it
    is, an id with a NUL in it never does.  Location x and z, the scale and
    the rotation come back as they are; location y comes back as the
    rotation's yaw, because both are written under "t.y" and the yaw is
    written last.  The transform round-trips exactly when location y equals
    the yaw. *)
Theorem device_entry_read_back (dis : DeviceInScene) (s : QSettings) :
  let id := GetUniqueId (device dis) in
  let read := c_str (QString_toUtf8 (toString (value "id" (save_device dis s)))) in
  (plain_text id = true -> read = id) /\
  (has_NUL id = true -> read <> id) /\
  load_transform (save_device dis s) = reloaded (transform dis) /\
  (load_transform (save_device dis s) = transform dis <->
   y (location (transform dis)) = yaw (rotation (transform dis))).
Proof.
  intros id read.
  assert (Hload : load_transform (save_device dis s) = reloaded (transform dis)).
  { unfold load_transform, save_device, reloaded. rewrite !value_setValue. simpl.
    by destruct (transform dis) as [[] [] []]. }
  assert (Hread : read = c_str (QString_fromUtf8 (c_str id))).
  { unfold read, save_device. by rewrite !value_setValue. }
  split; [|split; [|split; [exact Hload|]]].
  - intros Hplain. rewrite Hread. unfold QString_fromUtf8.
    by rewrite (c_str_plain id), skip_bom_plain, convertToUnicode_plain, c_str_plain.
  - intros HNUL Heq. rewrite Hread in Heq.
    pose proof (c_str_no_NUL (QString_fromUtf8 (c_str id))) as Hno.
    rewrite Heq in Hno. congruence.
  - rewrite Hload. unfold reloaded. destruct (transform dis) as [[lx ly lz] sc [p yw r]].
    simpl. split; [by intros [= ->]|by intros ->].
Qed.
End DeviceEntry.

(** ** The size Save records for the scenes *)

Section SceneCount.
Context `{Types}.
Implicit Types (s : QSettings) (gs : list QSettingsGroup).

(** What lies below the innermost group. *)
Lemma setValue_stack key v s : groupStack (setValue key v s) = groupStack s.
Proof. done. Qed.

Lemma remove_stack key s : groupStack (remove key s) = groupStack s.
Proof. done. Qed.

Lemma setArrayIndex_tail i s : tail (groupStack (setArrayIndex i s)) = tail (groupStack s).
Proof.
  unfold setArrayIndex. destruct (groupStack s) as [|g gs] eqn:Hs; [by rewrite Hs|].
  destruct (num g =? -1); simpl; by rewrite ?Hs.
Qed.

Lemma setArrayIndex_nonempty i s : groupStack s <> [] -> groupStack (setArrayIndex i s) <> [].
Proof.
  unfold setArrayIndex. destruct (groupStack s) as [|g gs] eqn:Hs; [done|].
  destruct (num g =? -1); simpl; by rewrite ?Hs.
Qed.

Lemma save_device_stack dis s : groupStack (save_device dis s) = groupStack s.
Proof. done. Qed.

Lemma save_devices_tail devs j s :
  groupStack s <> [] ->
  groupStack (save_devices devs j s) <> [] /\
  tail (groupStack (save_devices devs j s)) = tail (groupStack s).
Proof.
  revert j s. induction devs as [|dis devs IH]; intros j s Hs; simpl; [done|].
  destruct (IH (j + 1) (save_device dis (setArrayIndex j s))) as [Hne Htl].
  { rewrite save_device_stack. by apply setArrayIndex_nonempty. }
  split; [done|]. by rewrite Htl, save_device_stack, setArrayIndex_tail.
Qed.

Lemma save_effects_tail effs j s :
  Forall (fun e => confined (Effect_Save e)) effs ->
  groupStack s <> [] ->
  groupStack (save_effects effs j s) <> [] /\
  tail (groupStack (save_effects effs j s)) = tail (groupStack s).
Proof.
  intros Heffs. revert j s. induction Heffs as [|e effs He _ IH]; intros j s Hs; simpl; [done|].
  destruct (He (setArrayIndex j s)) as [Hstack _].
  destruct (IH (j + 1) (Effect_Save e (setArrayIndex j s))) as [Hne Htl].
  { rewrite Hstack. by apply setArrayIndex_nonempty. }
  split; [done|]. by rewrite Htl, Hstack, setArrayIndex_tail.
Qed.

(** An inner array, from [beginWriteArray] to [endArray], leaves the group
    stack as it found it. *)
Lemma endArray_after_tail s s' gs :
  groupStack s' <> [] -> tail (groupStack s') = gs -> groupStack (endArray s') = gs.
Proof.
  intros Hne Htl. unfold endArray. destruct (groupStack s') as [|g rest]; [done|].
  simpl in Htl. subst rest. by destruct (maxNum g =? -1).
Qed.

(** The scenes loop keeps the array group "scenes" on the stack and counts
    the entries in its [maxNum]. *)
Lemma save_scenes_counts scs i s g0 :
  Forall (fun scene => Forall (fun e => confined (Effect_Save e)) (effects scene)) scs ->
  0 <= i ->
  groupStack s = [g0] -> num g0 <> -1 -> maxNum g0 = i ->
  exists g, groupStack (save_scenes scs i s) = [g] /\ str g = str g0 /\
            maxNum g = i + Z.of_nat (length scs).
Proof.
  intros Hscs. revert i s g0.
  induction Hscs as [|scene scs Hscene _ IH]; intros i s g0 Hi Hs Hnum Hmax; simpl.
  { exists g0. split; [done|]. split; [done|]. lia. }
  set (s1 := setArrayIndex i s).
  assert (Hs1 : groupStack s1 = [QSettingsGroup_setArrayIndex (Z.max i 0) g0]).
  { unfold s1, setArrayIndex. rewrite Hs. by apply Z.eqb_neq in Hnum as ->. }
  set (g1 := QSettingsGroup_setArrayIndex (Z.max i 0) g0) in Hs1.
  set (s2 := endArray (save_effects (effects scene) 0 (beginWriteArray "effects" s1))).
  assert (Hs2 : groupStack s2 = [g1]).
  { apply (endArray_after_tail s1).
    - apply save_effects_tail; [done|]. by unfold beginWriteArray.
    - destruct (save_effects_tail (effects scene) 0 (beginWriteArray "effects" s1)) as [_ ->];
        [done|by unfold beginWriteArray|].
      unfold beginWriteArray. simpl. done. }
  set (s3 := endArray (save_devices (devices scene) 0 (beginWriteArray "devices" s2))).
  assert (Hs3 : groupStack s3 = [g1]).
  { apply (endArray_after_tail s2).
    - apply save_devices_tail. by unfold beginWriteArray.
    - destruct (save_devices_tail (devices scene) 0 (beginWriteArray "devices" s2)) as [_ ->];
        [by unfold beginWriteArray|].
      unfold beginWriteArray. simpl. done. }
  assert (Hg1 : num g1 <> -1 /\ maxNum g1 = i + 1 /\ str g1 = str g0).
  { unfold g1, QSettingsGroup_setArrayIndex. simpl. rewrite Z.max_l by lia.
    split; [lia|]. split; [|done].
    rewrite Hmax. destruct (Z.eqb_spec i (-1)); [lia|]. simpl.
    by rewrite (proj2 (Z.ltb_lt i (i + 1))) by lia. }
  destruct Hg1 as (Hnum1 & Hmax1 & Hstr1).
  destruct (IH (i + 1) s3 g1) as (g & Hg & Hstr & Hmaxg); [lia|done..|].
  exists g. split; [done|]. split; [congruence|]. lia.
Qed.

(** X13: when the providers leave the group stack empty and the effects
    write below their own group only, [Save] records the number of scenes
    under "scenes/size", also when there is none. *)
Theorem Save_records_scene_count (b : Backend) (persisted after : gmap string QVariant)
    (provided : QSettings) :
  save_providers (deviceProviders b) (mkQSettings ∅ []) = Some provided ->
  groupStack provided = [] ->
  Forall (fun scene => Forall (fun e => confined (Effect_Save e)) (effects scene)) (scenes b) ->
  Save b persisted = Some after ->
  after !! "scenes/size" = Some (QVariant_int (Z.of_nat (length (scenes b)))).
Proof.
  intros Hprov Hstack Heffs Hsave. unfold Save, save_body in Hsave. simpl in Hsave.
  change (clear (QSettings_open persisted)) with (mkQSettings ∅ []) in Hsave.
  rewrite Hprov in Hsave. simpl in Hsave. simplify_eq.
  destruct (save_scenes_counts (scenes b) 0 (beginWriteArray "scenes" provided)
                               (mkQSettingsGroup "scenes" 0 0))
    as (g & Hg & Hstr & Hmax); [done|done| |done|done|].
  { unfold beginWriteArray. simpl. by rewrite Hstack. }
  unfold endArray. rewrite Hg. simpl in *.
  destruct (Z.eqb_spec (maxNum g) (-1)); [lia|].
  unfold setValue, actualKey, groupPrefix. simpl. rewrite Hstr, Hmax. simpl.
  by rewrite lookup_insert_eq.
Qed.
End SceneCount.

(** ** What Load adds *)

Section LoadAdds.
Context `{Externals}.
Implicit Types (r nulls : Registry).

Lemma resolved_in_app r nulls (ds : list DeviceInScene) :
  resolved_in r ds -> resolved_in (r ++ nulls) ds.
Proof.
  unfold resolved_in. intros Hds. eapply Forall_impl; [exact Hds|].
  intros dis (id & p & Hfind & Hget).
  exists id, p. split; [by apply Registry_find_app_Some|done].
Qed.

(** [deviceProviders[type]] finds the entry or appends a null one. *)
Lemma Registry_index_spec (type : ProviderType) r :
  exists nulls,
    (Registry_index type r).2 = r ++ nulls /\
    Forall (fun dp => dp.2 = None) nulls /\
    forall p, (Registry_index type r).1 = Some p ->
              Registry_find type (r ++ nulls) = Some (Some p).
Proof.
  unfold Registry_index. destruct (Registry_find type r) as [p|] eqn:Hfind; simpl.
  - exists []. rewrite app_nil_r. split; [done|]. split; [done|]. by intros p' ->.
  - exists [(type, None)]. split; [done|]. split; [by repeat constructor|done].
Qed.

(** The devices loop appends to the scene's devices only devices a live
    provider resolved, and to the registry only null entries. *)
Lemma load_devices_spec (fuel : nat) (j devicesSize : Z) (settings : QSettings) r
    (devs : list DeviceInScene) :
  exists added nulls,
    (load_devices fuel j devicesSize settings r devs).1.1 = devs ++ added /\
    (load_devices fuel j devicesSize settings r devs).1.2 = r ++ nulls /\
    Forall (fun dp => dp.2 = None) nulls /\
    resolved_in (r ++ nulls) added.
Proof.
  revert j settings r devs.
  induction fuel as [|fuel IH]; intros j settings r devs; simpl.
  { exists [], []. rewrite !app_nil_r. repeat split; first [done|constructor]. }
  destruct (j <? devicesSize);
    [|exists [], []; rewrite !app_nil_r; repeat split; first [done|constructor]].
  set (s1 := setArrayIndex j settings).
  set (id := c_str (QString_toUtf8 (toString (value "id" s1)))).
  destruct (Registry_index_spec (GetProviderTypeFromUniqueId id) r) as (n1 & Hr1 & Hn1 & Hp).
  destruct (Registry_index (GetProviderTypeFromUniqueId id) r) as [provider r1].
  simpl in Hr1, Hp. subst r1.
  assert (Hskip : exists added nulls,
            (load_devices fuel (j + 1 + 1) devicesSize s1 (r ++ n1) devs).1.1 = devs ++ added /\
            (load_devices fuel (j + 1 + 1) devicesSize s1 (r ++ n1) devs).1.2 = r ++ nulls /\
            Forall (fun dp => dp.2 = None) nulls /\ resolved_in (r ++ nulls) added).
  { destruct (IH (j + 1 + 1) s1 (r ++ n1) devs) as (added & n2 & Hd & Hr & Hn2 & Hres).
    exists added, (n1 ++ n2). rewrite app_assoc. split; [done|]. split; [done|].
    split; [by apply Forall_app|done]. }
  destruct provider as [p|]; [|exact Hskip].
  destruct (GetDeviceFromUniqueId p id) as [d|] eqn:Hget; [|exact Hskip].
  destruct (IH (j + 1 + 1) s1 (r ++ n1) (devs ++ [mkDeviceInScene _ d (load_transform s1)]))
    as (added & n2 & Hd & Hr & Hn2 & Hres).
  exists (mkDeviceInScene _ d (load_transform s1) :: added), (n1 ++ n2).
  rewrite Hd, Hr, <- !app_assoc. split; [done|]. split; [done|].
  split; [by apply Forall_app|].
  rewrite app_assoc. constructor; [|done].
  exists id, p. split; [|done]. apply Registry_find_app_Some. by apply Hp.
Qed.

(** The scenes loop appends one scene per index from [i] to [scenesSize],
    made of resolved devices, and appends only null entries to the
    registry. *)
Lemma load_scenes_spec (fuel : nat) (i scenesSize : Z) (settings : QSettings) r
    (scs : list Scene) :
  exists added nulls,
    (load_scenes fuel i scenesSize settings r scs).1.1 = scs ++ added /\
    length added = Nat.min fuel (Z.to_nat (scenesSize - i)) /\
    (load_scenes fuel i scenesSize settings r scs).1.2 = r ++ nulls /\
    Forall (fun dp => dp.2 = None) nulls /\
    Forall (fun scene => resolved_in (r ++ nulls) (devices scene)) added.
Proof.
  revert i settings r scs.
  induction fuel as [|fuel IH]; intros i settings r scs; cbn [load_scenes].
  { exists [], []. rewrite !app_nil_r. repeat split; first [done|constructor]. }
  destruct (Z.ltb_spec i scenesSize) as [Hlt|Hge].
  2: { exists [], []. rewrite !app_nil_r. split; [done|]. split; [by replace (Z.to_nat (scenesSize - i)) with 0%nat by lia|].
       split; [done|]. split; constructor. }
  destruct (beginReadArray "effects" (setArrayIndex i settings)) as [effectsSize s1].
  destruct (load_effects (Z.to_nat effectsSize) 0 effectsSize s1 []) as [effs s2].
  destruct (beginReadArray "devices" (endArray s2)) as [devicesSize s3].
  destruct (load_devices_spec (Z.to_nat devicesSize) 0 devicesSize s3 r [])
    as (devs & n1 & Hd & Hr & Hn1 & Hres).
  destruct (load_devices (Z.to_nat devicesSize) 0 devicesSize s3 r []) as [[devs' r1] s4].
  simpl in Hd, Hr. subst devs' r1.
  destruct (IH (i + 1) (endArray s4) (r ++ n1) (scs ++ [mkScene _ devs effs]))
    as (added & n2 & Hs & Hlen & Hr & Hn2 & Hall).
  exists (mkScene _ devs effs :: added), (n1 ++ n2).
  rewrite Hs, Hr, <- !app_assoc. split; [done|].
  split.
  { cbn [length]. rewrite Hlen.
    replace (Z.to_nat (scenesSize - i)) with (S (Z.to_nat (scenesSize - (i + 1)))) by lia.
    done. }
  split; [done|].
  split; [by apply Forall_app|].
  rewrite app_assoc. constructor; [|done]. simpl. by apply resolved_in_app.
Qed.

Lemma load_providers_keys r r' (settings settings' : QSettings) :
  load_providers r settings = Some (r', settings') -> r'.*1 = r.*1 /\ Registry_live r'.
Proof.
  revert r' settings settings'.
  induction r as [|[t p] r IH]; intros r' settings settings' Hl; simpl in *.
  - simplify_eq. by split; [|constructor].
  - destruct p as [p|]; [|done].
    destruct (DeviceProvider_Load p settings) as [p' s1].
    destruct (load_providers r s1) as [[r1 s2]|] eqn:Hl1; [|done]. simplify_eq.
    destruct (IH _ _ _ Hl1) as [Hkeys Hlive]. split; [by rewrite !fmap_cons, Hkeys|].
    constructor; [by eexists|done].
Qed.

(** Where [Load] gets to: the providers loaded, the scenes read. *)
Lemma Load_inv (b b' : Backend) (persisted : gmap string QVariant) :
  Load b persisted = Some b' ->
  exists r settings,
    load_providers (deviceProviders b) (QSettings_open persisted) = Some (r, settings) /\
    scenes b' =
      (load_scenes (Z.to_nat (beginReadArray "scenes" settings).1) 0
                   (beginReadArray "scenes" settings).1
                   (beginReadArray "scenes" settings).2 r (scenes b)).1.1 /\
    deviceProviders b' =
      (load_scenes (Z.to_nat (beginReadArray "scenes" settings).1) 0
                   (beginReadArray "scenes" settings).1
                   (beginReadArray "scenes" settings).2 r (scenes b)).1.2 /\
    stopRequested b' = stopRequested b /\ IsRunning b' = IsRunning b /\
    activeSceneIndex b' = activeSceneIndex b /\ scenesAreDirty b' = scenesAreDirty b.
Proof.
  unfold Load. intros Hl.
  destruct (load_providers _ _) as [[r settings]|]; [|done].
  exists r, settings. split; [done|].
  destruct (beginReadArray "scenes" settings) as [scenesSize s1]. simpl.
  destruct (load_scenes _ _ _ _ _ _) as [[scs r'] s2]. by simplify_eq.
Qed.

(** X14: [Load] appends to the scenes the backend holds and never replaces
    them: one scene for every index below the size read for the array
    "scenes", none when that size is missing, not a number or not positive.
    It does not mark the scenes dirty and leaves the active index and the
    thread alone. *)
Theorem Load_appends_scenes (b b' : Backend) (persisted : gmap string QVariant) :
  Load b persisted = Some b' ->
  exists r settings loaded,
    load_providers (deviceProviders b) (QSettings_open persisted) = Some (r, settings) /\
    scenes b' = scenes b ++ loaded /\
    length loaded = Z.to_nat (beginReadArray "scenes" settings).1 /\
    scenesAreDirty b' = scenesAreDirty b /\
    activeSceneIndex b' = activeSceneIndex b /\
    IsRunning b' = IsRunning b.
Proof.
  intros (r & settings & Hprov & Hscenes & _ & _ & Hrun & Hidx & Hdirty)%Load_inv.
  destruct (load_scenes_spec (Z.to_nat (beginReadArray "scenes" settings).1) 0
              (beginReadArray "scenes" settings).1 (beginReadArray "scenes" settings).2
              r (scenes b)) as (added & nulls & Hs & Hlen & _).
  exists r, settings, added. split; [done|]. split; [by rewrite Hscenes|].
  split; [|done]. by rewrite Hlen, Z.sub_0_r, Nat.min_id.
Qed.

(** A type has no entry exactly when it is not among the keys. *)
Lemma Registry_find_None (type : ProviderType) r :
  Registry_find type r = None <-> type ∉ r.*1.
Proof.
  induction r as [|[t p] r IH]; simpl.
  - split; [intros _; apply not_elem_of_nil|done].
  - rewrite not_elem_of_cons. destruct (Nat.eqb_spec t type) as [->|Hne].
    + split; [done|]. by intros [? _].
    + rewrite IH. split; [by split|by intros [_ ?]].
Qed.

Lemma nulls_for_nil r : nulls_for r [] [].
Proof.
  split; [constructor|]. split; [constructor|].
  intros type. simpl. split; [by intros ?%elem_of_nil|by intros [_ ?%elem_of_nil]].
Qed.

(** Lookups of [types1] and then of [types2]. *)
Lemma nulls_for_app r nulls1 nulls2 (types1 types2 : list ProviderType) :
  nulls_for r nulls1 types1 -> nulls_for (r ++ nulls1) nulls2 types2 ->
  nulls_for r (nulls1 ++ nulls2) (types1 ++ types2).
Proof.
  intros (Hn1 & Hd1 & H1) (Hn2 & Hd2 & H2).
  split; [by apply Forall_app|]. rewrite fmap_app. split.
  - apply NoDup_app. split; [done|]. split; [|done].
    intros type Hin1 [Hnot _]%H2. apply Hnot. rewrite fmap_app, elem_of_app. by right.
  - intros type. rewrite !elem_of_app, H1, H2, fmap_app, not_elem_of_app. split.
    + intros [[? ?]|[[? ?] ?]]; (split; [done|]); [by left|by right].
    + intros [Hr [Hin|Hin]]; [by left|].
      destruct (decide (type ∈ nulls1.*1)) as [Hin1|Hout1].
      * left. by apply H1.
      * by right.
Qed.

(** One lookup. *)
Lemma Registry_index_nulls (type : ProviderType) r :
  exists nulls, (Registry_index type r).2 = r ++ nulls /\ nulls_for r nulls [type].
Proof.
  unfold Registry_index. destruct (Registry_find type r) as [p|] eqn:Hfind; simpl.
  - exists []. rewrite app_nil_r. split; [done|].
    split; [constructor|]. split; [constructor|].
    intros t. simpl. split; [by intros ?%elem_of_nil|].
    intros [Hnot ->%list_elem_of_singleton]. apply Registry_find_None in Hnot. congruence.
  - exists [(type, None)]. split; [done|].
    split; [by repeat constructor|]. split; [apply NoDup_singleton|].
    intros t. simpl. rewrite !list_elem_of_singleton. split; [|by intros [_ ?]].
    intros ->. split; [|done]. by apply Registry_find_None.
Qed.

(** The devices loop looks up every id it reads, whatever becomes of the
    entry, and leaves the settings object where the reads left it. *)
Lemma load_devices_lookups (fuel : nat) (j devicesSize : Z) (settings : QSettings) r
    (devs : list DeviceInScene) :
  (load_devices fuel j devicesSize settings r devs).2 =
    (devices_ids fuel j devicesSize settings).2 /\
  exists nulls,
    (load_devices fuel j devicesSize settings r devs).1.2 = r ++ nulls /\
    nulls_for r nulls (GetProviderTypeFromUniqueId <$> (devices_ids fuel j devicesSize settings).1).
Proof.
  revert j settings r devs.
  induction fuel as [|fuel IH]; intros j settings r devs; simpl.
  { split; [done|]. exists []. rewrite app_nil_r. split; [done|apply nulls_for_nil]. }
  destruct (j <? devicesSize).
  2:{ split; [done|]. exists []. rewrite app_nil_r. split; [done|apply nulls_for_nil]. }
  set (s1 := setArrayIndex j settings).
  set (id := c_str (QString_toUtf8 (toString (value "id" s1)))).
  destruct (Registry_index_nulls (GetProviderTypeFromUniqueId id) r) as (n1 & Hr1 & Hn1).
  destruct (Registry_index (GetProviderTypeFromUniqueId id) r) as [provider r1].
  simpl in Hr1. subst r1.
  assert (Hnext : forall devs',
            (load_devices fuel (j + 1 + 1) devicesSize s1 (r ++ n1) devs').2 =
              (let '(ids, settings0) := devices_ids fuel (j + 1 + 1) devicesSize s1 in
               (id :: ids, settings0)).2 /\
            exists nulls,
              (load_devices fuel (j + 1 + 1) devicesSize s1 (r ++ n1) devs').1.2 = r ++ nulls /\
              nulls_for r nulls
                (GetProviderTypeFromUniqueId <$>
                   (let '(ids, settings0) := devices_ids fuel (j + 1 + 1) devicesSize s1 in
                    (id :: ids, settings0)).1)).
  { intros devs'. destruct (IH (j + 1 + 1) s1 (r ++ n1) devs') as (Hs & n2 & Hr2 & Hn2).
    destruct (devices_ids fuel (j + 1 + 1) devicesSize s1) as [ids s2]. simpl in *.
    split; [done|]. exists (n1 ++ n2). rewrite app_assoc. split; [done|].
    by apply (nulls_for_app r n1 n2 [GetProviderTypeFromUniqueId id]). }
  destruct provider as [p|]; [|apply Hnext].
  destruct (GetDeviceFromUniqueId p id) as [d|]; apply Hnext.
Qed.

(** The same for the scenes loop. *)
Lemma load_scenes_lookups (fuel : nat) (i scenesSize : Z) (settings : QSettings) r
    (scs : list Scene) :
  exists nulls,
    (load_scenes fuel i scenesSize settings r scs).1.2 = r ++ nulls /\
    nulls_for r nulls (GetProviderTypeFromUniqueId <$> scenes_ids fuel i scenesSize settings).
Proof.
  revert i settings r scs.
  induction fuel as [|fuel IH]; intros i settings r scs; cbn [load_scenes scenes_ids].
  { exists []. rewrite app_nil_r. split; [done|apply nulls_for_nil]. }
  destruct (i <? scenesSize).
  2:{ exists []. rewrite app_nil_r. split; [done|apply nulls_for_nil]. }
  destruct (beginReadArray "effects" (setArrayIndex i settings)) as [effectsSize s1].
  destruct (load_effects (Z.to_nat effectsSize) 0 effectsSize s1 []) as [effs s2].
  destruct (beginReadArray "devices" (endArray s2)) as [devicesSize s3].
  destruct (load_devices_lookups (Z.to_nat devicesSize) 0 devicesSize s3 r [])
    as (Hs & n1 & Hr1 & Hn1).
  destruct (load_devices (Z.to_nat devicesSize) 0 devicesSize s3 r []) as [[devs r1] s4].
  destruct (devices_ids (Z.to_nat devicesSize) 0 devicesSize s3) as [ids s4'].
  simpl in Hs, Hr1, Hn1. subst s4' r1.
  destruct (IH (i + 1) (endArray s4) (r ++ n1) (scs ++ [mkScene _ devs effs]))
    as (n2 & Hr2 & Hn2).
  exists (n1 ++ n2). rewrite app_assoc, fmap_app. split; [done|].
  by apply nulls_for_app.
Qed.

(** X15: [Load] keeps the registry's entries, each provider loaded and none
    null, and adds nothing to it but null entries: exactly one for every
    provider type that it looked up, for an id read from the settings, and
    that the registry had no entry for. *)
Theorem Load_adds_only_null_providers (b b' : Backend) (persisted : gmap string QVariant) :
  Load b persisted = Some b' ->
  exists r settings nulls,
    load_providers (deviceProviders b) (QSettings_open persisted) = Some (r, settings) /\
    r.*1 = (deviceProviders b).*1 /\
    Registry_live r /\
    deviceProviders b' = r ++ nulls /\
    Forall (fun dp => dp.2 = None) nulls /\
    NoDup nulls.*1 /\
    forall type,
      type ∈ nulls.*1 <->
      (type ∉ (deviceProviders b).*1) /\
      exists id, id ∈ Load_ids settings /\ GetProviderTypeFromUniqueId id = type.
Proof.
  intros (r & settings & Hprov & _ & Hregs & _)%Load_inv.
  destruct (load_scenes_lookups (Z.to_nat (beginReadArray "scenes" settings).1) 0
              (beginReadArray "scenes" settings).1 (beginReadArray "scenes" settings).2
              r (scenes b)) as (nulls & Hr & Hnone & Hdup & Hnulls).
  destruct (load_providers_keys _ _ _ _ Hprov) as [Hkeys Hlive].
  exists r, settings, nulls. rewrite Hregs, <- Hkeys. repeat (split; [done|]).
  intros type. rewrite Hnulls. unfold Load_ids.
  destruct (beginReadArray "scenes" settings) as [scenesSize s1]. simpl.
  split.
  - intros [Hnot Hin]. split; [done|].
    apply list_elem_of_fmap in Hin as (id & -> & Hin). by exists id.
  - intros [Hnot (id & Hin & <-)]. split; [done|].
    apply list_elem_of_fmap. by exists id.
Qed.

(** X16: every device [Load] places in a scene was resolved: its provider
    type, decoded from a persisted id, has a live provider in the registry
    [Load] leaves, and that provider returned the device for the id. *)
Theorem Load_places_resolved_devices (b b' : Backend) (persisted : gmap string QVariant) :
  Load b persisted = Some b' ->
  forall scene dis,
    scene ∈ drop (length (scenes b)) (scenes b') ->
    dis ∈ devices scene ->
    exists id p,
      Registry_find (GetProviderTypeFromUniqueId id) (deviceProviders b') = Some (Some p) /\
      GetDeviceFromUniqueId p id = Some (device dis).
Proof.
  intros (r & settings & Hprov & Hscenes & Hregs & _)%Load_inv scene dis Hscene Hdis.
  destruct (load_scenes_spec (Z.to_nat (beginReadArray "scenes" settings).1) 0
              (beginReadArray "scenes" settings).1 (beginReadArray "scenes" settings).2
              r (scenes b)) as (added & nulls & Hs & _ & Hr & _ & Hall).
  rewrite Hscenes, Hs, drop_app_length in Hscene. rewrite Hregs, Hr.
  rewrite Forall_forall in Hall. specialize (Hall scene Hscene).
  unfold resolved_in in Hall. rewrite Forall_forall in Hall. by apply Hall.
Qed.

(** The effects loop adds no more than one effect for every two indices
    left. *)
Lemma load_effects_extends (fuel : nat) (j effectsSize : Z) (settings : QSettings)
    (effs : list Effect) :
  exists added, (load_effects fuel j effectsSize settings effs).1 = effs ++ added /\
                (Z.of_nat (length added) <= Z.max 0 ((effectsSize - j + 1) / 2)).
Proof.
  revert j settings effs.
  induction fuel as [|fuel IH]; intros j settings effs; simpl.
  { exists []. rewrite app_nil_r. split; [done|]. simpl. lia. }
  destruct (Z.ltb_spec j effectsSize) as [Hlt|Hge];
    [|exists []; rewrite app_nil_r; split; [done|simpl; lia]].
  assert (Hhalf : (effectsSize - j + 1) / 2 = 1 + (effectsSize - (j + 1 + 1) + 1) / 2).
  { replace (effectsSize - j + 1) with (1 * 2 + (effectsSize - (j + 1 + 1) + 1)) by lia.
    rewrite Z.div_add_l by lia. done. }
  assert (0 <= (effectsSize - (j + 1 + 1) + 1) / 2) by (apply Z.div_pos; lia).
  destruct (StaticLoad (setArrayIndex j settings)) as [effect s1].
  destruct (IH (j + 1 + 1) s1 (effs ++ [effect])) as (added & -> & Hlen).
  eexists (_ :: added). rewrite <- app_assoc. split; [done|]. simpl length. lia.
Qed.

(** X17: both inner loops of [Load] advance their index twice per
    iteration, in the loop header and in [setArrayIndex(j++)]: of the
    entries an array is persisted with, at most every second one is read,
    for the devices and for the effects of a scene alike. *)
Theorem Load_reads_every_second_entry (size : Z) (settings : QSettings) (r : Registry) :
  0 <= size ->
  Z.of_nat (length (load_devices (Z.to_nat size) 0 size settings r []).1.1)
    <= (size + 1) / 2 /\
  Z.of_nat (length (load_effects (Z.to_nat size) 0 size settings []).1) <= (size + 1) / 2.
Proof.
  intros Hsize.
  assert (0 <= (size + 1) / 2) by (apply Z.div_pos; lia).
  split.
  - destruct (load_devices_extends (Z.to_nat size) 0 size settings r [])
      as (added & -> & Hlen).
    simpl. rewrite Z.sub_0_r in Hlen. lia.
  - destruct (load_effects_extends (Z.to_nat size) 0 size settings [])
      as (added & -> & Hlen).
    simpl. rewrite Z.sub_0_r in Hlen. lia.
Qed.
End LoadAdds.

(** ** The further properties on concrete backends *)

Section MoreWitnesses.
Local Existing Instance ex_Types.
Local Existing Instance ex_Externals.

(** The dirty block in the two-provider scenario. *)
Lemma flatten_boxes_belong_to_devices_witness :
  refresh scenario_backend (thread_init scenario_backend) =
    Some (scenario_refreshed, [SceneCopy; SortDevices; Flatten]) /\
  forall (i : nat) (box : Box),
    Locals.boundingBoxes scenario_refreshed !! i = Some box ->
    exists dis,
      dis ∈ devices (Locals.renderScene scenario_refreshed) /\
      Locals.devices scenario_refreshed !! i = Some (device dis) /\
      box ∈ GetLightBoundingBoxes dis.
Proof.
  split; [reflexivity|].
  apply (flatten_boxes_belong_to_devices scenario_backend (thread_init scenario_backend)
                                         scenario_refreshed [SceneCopy; SortDevices; Flatten]).
  reflexivity.
Defined.

(** A second dirty block in the scenario: the colours of the first tick are
    still there. *)
Lemma refresh_keeps_old_colors_witness :
  refresh scenario_backend scenario_ticked =
    Some (scenario_ticked, [SceneCopy; SortDevices; Flatten]) /\
  forall i : nat,
    (i < length (Locals.boundingBoxes scenario_ticked))%nat ->
    Locals.colors scenario_ticked !! i =
      if decide (i < length (Locals.colors scenario_ticked))%nat
      then Locals.colors scenario_ticked !! i
      else Some HsluvColor_init.
Proof.
  split; [reflexivity|].
  apply (refresh_keeps_old_colors scenario_backend scenario_ticked scenario_ticked
                                  [SceneCopy; SortDevices; Flatten]).
  reflexivity.
Defined.

(** The first tick of the scenario, whose effect keeps the length. *)
Lemma tick_keeps_arrays_aligned_witness :
  tick scenario_backend double_zero (thread_init scenario_backend) =
    Some (scenario_ticked, scenario_events) /\
  Forall length_preserving (effects (Locals.renderScene scenario_ticked)) /\
  length (Locals.boundingBoxes scenario_ticked) = length (Locals.devices scenario_ticked) /\
  length (Locals.devices scenario_ticked) = length (Locals.colors scenario_ticked).
Proof.
  assert (Forall length_preserving (effects (Locals.renderScene scenario_ticked))) as Heffs.
  { repeat constructor. intros st bbs colors. simpl. apply length_map. }
  split; [reflexivity|]. split; [exact Heffs|].
  apply (tick_keeps_arrays_aligned scenario_backend double_zero (thread_init scenario_backend)
                                   scenario_ticked scenario_events).
  - reflexivity.
  - intros Hclean. discriminate Hclean.
  - exact Heffs.
Defined.

(** The first tick of the scenario. *)
Lemma tick_updates_every_provider_with_default_witness :
  reachable (thread_init scenario_backend) /\
  tick scenario_backend double_zero (thread_init scenario_backend) =
    Some (scenario_ticked, scenario_events) /\
  provider_updates scenario_events =
    [(1%nat, LightUpdateParams_init); (2%nat, LightUpdateParams_init)].
Proof.
  split; [apply reachable_init|]. split; [reflexivity|].
  apply (tick_updates_every_provider_with_default scenario_backend double_zero
           (thread_init scenario_backend) scenario_ticked scenario_events).
  - apply reachable_init.
  - reflexivity.
Defined.

(** A tick on the unmarked backend, and on a backend without scenes. *)
Lemma clean_tick_ignores_scenes_witness :
  tick unmarked_backend double_zero (thread_init unmarked_backend) =
    Some (unmarked_ticked,
          [ProviderUpdate 1%nat LightUpdateParams_init;
           ProviderUpdate 2%nat LightUpdateParams_init]) /\
  tick fresh_backend double_zero (thread_init unmarked_backend) =
    Some (unmarked_ticked,
          [ProviderUpdate 1%nat LightUpdateParams_init;
           ProviderUpdate 2%nat LightUpdateParams_init]).
Proof.
  split; [reflexivity|].
  apply (clean_tick_ignores_scenes unmarked_backend fresh_backend double_zero
           (thread_init unmarked_backend) unmarked_ticked
           [ProviderUpdate 1%nat LightUpdateParams_init;
            ProviderUpdate 2%nat LightUpdateParams_init]); reflexivity.
Defined.

(** The scenario's scene, present but not marked dirty. *)
Lemma unmarked_scene_is_not_flattened_witness :
  scenesAreDirty unmarked_backend = false /\
  Registry_live (deviceProviders unmarked_backend) /\
  exists st' evs,
    tick unmarked_backend double_zero (thread_init unmarked_backend) = Some (st', evs) /\
    Locals.boundingBoxes st' = [] /\
    Locals.devices st' = [].
Proof.
  split; [reflexivity|]. split; [apply ex_registry_live|].
  destruct (unmarked_scene_is_not_flattened unmarked_backend double_zero eq_refl
                                            ex_registry_live)
    as (st' & evs & Ht & Hbb & Hdevs & _).
  exists st', evs. auto.
Defined.

(** A stopped backend with two providers. *)
Lemma Start_then_Stop_witness :
  IsRunning fresh_backend = false /\
  Registry_live (deviceProviders fresh_backend) /\
  exists b1 b2,
    Start fresh_backend = Some (b1, [ProviderStart 1%nat; ProviderStart 2%nat; ThreadSpawn]) /\
    Stop b1 = Some (b2, [ThreadJoin; ProviderStop 1%nat; ProviderStop 2%nat]) /\
    scenes b2 = scenes fresh_backend.
Proof.
  split; [reflexivity|]. split; [apply ex_registry_live|].
  destruct (Start_then_Stop fresh_backend eq_refl ex_registry_live)
    as (b1 & b2 & b3 & HStart & _ & _ & HStop & Hb2 & _).
  exists b1, b2. split; [exact HStart|]. split; [exact HStop|]. rewrite Hb2. reflexivity.
Defined.

(** A registry with a null entry for provider type 3. *)
Lemma null_provider_breaks_every_walk_witness :
  Registry_has_null (deviceProviders poisoned_backend) /\
  Start poisoned_backend = None /\
  Save poisoned_backend ∅ = None /\
  Load poisoned_backend ∅ = None /\
  tick poisoned_backend double_zero (thread_init poisoned_backend) = None.
Proof.
  assert (Registry_has_null (deviceProviders poisoned_backend)) as Hnull.
  { right. right. by left. }
  split; [exact Hnull|].
  destruct (null_provider_breaks_every_walk poisoned_backend double_zero
              (thread_init poisoned_backend) ∅ Hnull) as (HStart & _ & HSave & HLoad & Htick).
  split; [by apply HStart|]. auto.
Defined.

(** A lookup of provider type 3, which is not registered. *)
Lemma GetDeviceProvider_unknown_type_leaves_null_witness :
  Registry_find 3%nat (deviceProviders fresh_backend) = None /\
  exists b',
    GetDeviceProvider 3%nat fresh_backend = (None, b') /\
    deviceProviders b' = deviceProviders fresh_backend ++ [(3%nat, None)] /\
    Start b' = None.
Proof.
  split; [reflexivity|].
  destruct (proj2 (GetDeviceProvider_unknown_type_leaves_null fresh_backend 3%nat) eq_refl)
    as (b' & Hget & Hregs & _ & _ & _ & _ & _ & HStart).
  exists b'. split; [exact Hget|]. split; [exact Hregs|]. by apply HStart.
Defined.

(** The id "A1" comes back as it is; the id "A1", NUL, "B" comes back as
    "A1". *)
Lemma device_entry_read_back_witness :
  plain_text (GetUniqueId device_A) = true /\
  c_str (QString_toUtf8 (toString (value "id"
    (save_device (mkDeviceInScene _ device_A identity_transform) (QSettings_open ∅))))) =
    GetUniqueId device_A /\
  has_NUL (GetUniqueId device_cut) = true /\
  c_str (QString_toUtf8 (toString (value "id"
    (save_device (mkDeviceInScene _ device_cut identity_transform) (QSettings_open ∅))))) <>
    GetUniqueId device_cut /\
  c_str (QString_toUtf8 (toString (value "id"
    (save_device (mkDeviceInScene _ device_cut identity_transform) (QSettings_open ∅))))) =
    "A1".
Proof.
  split; [reflexivity|]. split.
  { apply (proj1 (device_entry_read_back (mkDeviceInScene _ device_A identity_transform)
                                         (QSettings_open ∅))). reflexivity. }
  split; [reflexivity|]. split; [|reflexivity].
  apply (proj1 (proj2 (device_entry_read_back (mkDeviceInScene _ device_cut identity_transform)
                                              (QSettings_open ∅)))). reflexivity.
Defined.

(** A backend with one scene, saved. *)
Lemma Save_records_scene_count_witness :
  is_Some (Save (backend_with pair_scene) ∅) /\
  forall after,
    Save (backend_with pair_scene) ∅ = Some after ->
    after !! "scenes/size" = Some (QVariant_int 1).
Proof.
  split; [apply Save_defined, ex_registry_live|].
  intros after Hsave.
  apply (Save_records_scene_count (backend_with pair_scene) ∅ after (mkQSettings ∅ []));
    [reflexivity|reflexivity|repeat constructor|exact Hsave].
Defined.

(** A store with one scene holding one resolvable device. *)
Lemma Load_appends_scenes_witness :
  Load fresh_backend small_store = Some small_loaded /\
  exists loaded,
    scenes small_loaded = scenes fresh_backend ++ loaded /\ length loaded = 1%nat.
Proof.
  assert (Load fresh_backend small_store = Some small_loaded) as Hload by reflexivity.
  split; [exact Hload|].
  destruct (Load_appends_scenes fresh_backend small_loaded small_store Hload)
    as (r & settings & loaded & Hprov & Hscenes & Hlen & _).
  exists loaded. split; [exact Hscenes|].
  injection Hprov as <- <-. exact Hlen.
Defined.

(** A store that names a device of provider type 3: [Load] leaves a null
    entry for the type. *)
Lemma Load_adds_only_null_providers_witness :
  Load fresh_backend stray_store = Some stray_loaded /\
  exists r nulls,
    Registry_live r /\ deviceProviders stray_loaded = r ++ nulls /\
    Forall (fun dp => dp.2 = None) nulls /\ NoDup nulls.*1 /\
    (3%nat ∉ (deviceProviders fresh_backend).*1) /\ 3%nat ∈ nulls.*1.
Proof.
  assert (Load fresh_backend stray_store = Some stray_loaded) as Hload by reflexivity.
  split; [exact Hload|].
  destruct (Load_adds_only_null_providers fresh_backend stray_loaded stray_store Hload)
    as (r & settings & nulls & Hprov & _ & Hlive & Hregs & Hnulls & Hdup & Hall).
  exists r, nulls. repeat (split; [done|]).
  assert (3%nat ∉ (deviceProviders fresh_backend).*1) as Hnot.
  { intros Hin. simpl in Hin. by decompose_list_elem_of. }
  split; [exact Hnot|]. apply Hall. split; [exact Hnot|].
  exists "Z9". injection Hprov as <- <-. split; [|reflexivity].
  vm_compute. left.
Defined.

Lemma Load_places_resolved_devices_witness :
  Load fresh_backend small_store = Some small_loaded /\
  exists id p,
    Registry_find (ex_GetProviderTypeFromUniqueId id) (deviceProviders small_loaded) =
      Some (Some p) /\
    GetDeviceFromUniqueId p id = Some device_A.
Proof.
  assert (Load fresh_backend small_store = Some small_loaded) as Hload by reflexivity.
  split; [exact Hload|].
  apply (Load_places_resolved_devices fresh_backend small_loaded small_store Hload
           (mkScene _ [mkDeviceInScene _ device_A zero_transform] [])
           (mkDeviceInScene _ device_A zero_transform)).
  - left.
  - left.
Defined.

(** An array persisted with three entries. *)
Lemma Load_reads_every_second_entry_witness :
  0 <= 3 /\
  Z.of_nat (length (load_devices (Z.to_nat 3) 0 3 (QSettings_open small_store)
                                 ex_registry []).1.1) <= 2.
Proof.
  split; [lia|].
  apply (proj1 (Load_reads_every_second_entry 3 (QSettings_open small_store) ex_registry
                  ltac:(lia))).
Defined.
End MoreWitnesses.
